(** * The state manager of the EVM chaincode (package [statemanager])

    A shallow embedding of [statemanager/statemanager.go]: the adapter that
    presents the Fabric ledger (the chaincode stub) to the Burrow EVM as its
    state interface, and the properties of its caches and of its latched
    error.

    Go values are modelled as follows.
    - [uint64] is [Z] with the wrap-around of [+=], [-=] and [++] written
      out ([wrap64]).
    - [[]byte], [[20]byte] and [[32]byte] are [list Byte.byte]; a nil slice
      and an empty slice are both the empty list (the source only takes
      [len] of a slice or tests [!= nil && Size() > 0]).
    - A Go map is a [gmap]; maps are reference values, so the two caches
      live in a heap indexed by locations and a [stateManager] holds the
      locations.  A [*stateManager] is a location too.
    - The [error] interface is [option error_value] ([None] is [nil]).
      A [*Exception] is held as the exception it points to; pointers to
      exceptions have no identity here (see [PushError]).
    - A method is a function in the state monad [M] over the [World].
    - The chaincode stub is an interface ([ChaincodeStubInterface]) over
      an abstract state, and every call made on it is logged; the
      functions of Burrow and of the Go library are the fields of the
      class [Library]. *)

From Stdlib Require Import ZArith Ascii String DecimalString.
From stdpp Require Import base option strings list gmap.

Open Scope Z_scope.

(** ** A small state monad *)

Definition M (W A : Type) : Type := W → A * W.

Definition ret {W A} (a : A) : M W A := λ w, (a, w).

Definition bind {W A B} (m : M W A) (k : A → M W B) : M W B :=
  λ w, let (a, w') := m w in k a w'.

Notation "'let*' p := m 'in' k" := (bind m (λ p, k))
  (at level 10, p pattern, m at level 100, k at level 200).
Notation "m ;; k" := (bind m (λ _, k))
  (at level 100, k at level 200, right associativity).

(** The result and the final world of a run. *)
Definition result {W A} (m : M W A) (w : W) : A := fst (m w).
Definition after {W A} (m : M W A) (w : W) : W := snd (m w).

(** ** Go data *)

Definition bytes := list Byte.byte.
Definition loc := nat.

Definition MaxUint64 : Z := 2 ^ 64 - 1.
Definition wrap64 (z : Z) : Z := z mod 2 ^ 64.
Definition is_uint64 (z : Z) : Prop := 0 ≤ z ≤ MaxUint64.

(** crypto.Address is [20]byte, binary.Word256 is [32]byte. *)
Definition Address := bytes.
Definition Word256 := bytes.

(** binary.Zero256 = Word256{} *)
Definition Zero256 : Word256 := replicate 32 Byte.x00.

(** Word256.Bytes: the 32 bytes as a slice. *)
Definition Word256_Bytes (w : Word256) : bytes := w.

(** ** Package errors (Burrow): coded errors *)

Inductive Code :=
| ErrorCodeGeneric
| ErrorCodeDuplicateAddress
| ErrorCodeInvalidAddress
| ErrorCodeIllegalWrite
| ErrorCodeIntegerOverflow
| ErrorCodeInsufficientBalance
| ErrorCodeOther (n : Z).

(** errors.Exception: a code and the text of the exception. *)
Record Exception := mkException {
  ExceptionCode : Code;
  ExceptionText : string }.

(** The dynamic values an [error] interface can hold: a [*Exception]
    (a nil pointer included), another coded error with the text of its
    [String()], or any other error with the text of its [Error()].  An
    [ExceptionPtr] carries the exception it points to; which pointer it is
    is not part of the value.  The errors of the stub and of the codec are
    taken to be their own: none is a [*Exception] that an adapter holds. *)
Inductive error_value :=
| ExceptionPtr (ex : option Exception)
| CodedErr (c : Code) (text : string)
| PlainErr (text : string).

(** errors.NewException: nil for the empty text. *)
Definition NewException (c : Code) (text : string) : option Exception :=
  match text with
  | EmptyString => None
  | _ => Some (mkException c text)
  end.

(** errors.AsException: nil for nil and for a nil [*Exception]; a
    [*Exception] is returned as it is; a coded error keeps its code and any
    other error gets the generic code, both through [NewException], so an
    error whose text is empty gives nil. *)
Definition AsException (err : option error_value) : option Exception :=
  match err with
  | None => None
  | Some (ExceptionPtr ex) => ex
  | Some (CodedErr c text) => NewException c text
  | Some (PlainErr text) => NewException ErrorCodeGeneric text
  end.

(** ** Packages permission and acm (Burrow): accounts *)

Definition PermFlag := Z.

Record BasePermissions := mkBasePermissions {
  Perms : PermFlag;
  SetBit : PermFlag }.

Record AccountPermissions := mkAccountPermissions {
  Base : BasePermissions;
  Roles : list string }.

Record Account := mkAccount {
  Address_ : Address;
  PublicKey : bytes;
  Sequence : Z;
  Balance : Z;
  Code_ : bytes;
  Permissions : AccountPermissions }.

(** permission.AccountPermissions{} and acm.Account{Address: address} *)
Definition ZeroPermissions : AccountPermissions :=
  mkAccountPermissions (mkBasePermissions 0 0) [].

Definition ZeroAccount (address : Address) : Account :=
  mkAccount address [] 0 0 [] ZeroPermissions.

Definition with_Balance (acc : Account) (b : Z) : Account :=
  mkAccount (Address_ acc) (PublicKey acc) (Sequence acc) b (Code_ acc)
            (Permissions acc).

Definition with_Code (acc : Account) (c : bytes) : Account :=
  mkAccount (Address_ acc) (PublicKey acc) (Sequence acc) (Balance acc) c
            (Permissions acc).

Definition with_Sequence (acc : Account) (s : Z) : Account :=
  mkAccount (Address_ acc) (PublicKey acc) s (Balance acc) (Code_ acc)
            (Permissions acc).

Definition with_Permissions (acc : Account) (p : AccountPermissions)
  : Account :=
  mkAccount (Address_ acc) (PublicKey acc) (Sequence acc) (Balance acc)
            (Code_ acc) p.

Definition with_Base (p : AccountPermissions) (b : BasePermissions)
  : AccountPermissions :=
  mkAccountPermissions b (Roles p).

(** The arguments handed to a [%v] or [%s] verb. *)
Inductive fmt_arg :=
| ArgAddress (a : Address)
| ArgAccount (acc : option Account)
| ArgBytes (b : bytes)
| ArgUint64 (z : Z)
| ArgString (s : string).

(** state.CacheOption: ReadOnly, or another option (state.Name). *)
Inductive CacheOption :=
| ReadOnly
| Name (name : string).

(** ** The libraries the package imports

    Functions of Burrow and of the Go library that the package calls and
    whose code is not part of it.  The adapter is parameterised by them;
    the contracts a property relies on are hypotheses of its theorem. *)

Class Library := {
  (** crypto.Address.String *)
  Address_String : Address → string;
  (** hex.EncodeToString *)
  hex_EncodeToString : bytes → string;
  (** binary.LeftPadWord256, on a slice of at most 32 bytes.  On a longer
      slice the function of Burrow panics; the field says nothing of that
      case, and what is stated of a value read from the store is stated
      for at most 32 bytes. *)
  LeftPadWord256 : bytes → Word256;
  (** binary.IsUint64SumOverflow *)
  IsUint64SumOverflow : Z → Z → bool;
  (** acm.Account.Marshal: the bytes and an error *)
  Account_Marshal : Account → bytes * option error_value;
  (** acm.Account.Unmarshal: the receiver after the call and an error *)
  Account_Unmarshal : Account → bytes → Account * option error_value;
  (** permission.BasePermissions.Set and Unset (their error is dropped) *)
  BasePermissions_Set : BasePermissions → PermFlag → bool → BasePermissions;
  BasePermissions_Unset : BasePermissions → PermFlag → BasePermissions;
  (** permission.AccountPermissions.AddRole and RemoveRole *)
  AccountPermissions_AddRole :
    AccountPermissions → string → bool * AccountPermissions;
  AccountPermissions_RemoveRole :
    AccountPermissions → string → bool * AccountPermissions;
  (** permission.Call and permission.Send *)
  permission_Call : PermFlag;
  permission_Send : PermFlag;
  (** fmt.Sprintf *)
  fmt_Sprintf : string → list fmt_arg → string;
  (** stack.Trace().String() *)
  stack_Trace_String : string }.

(** The format of the text that [PushError] stores: the text of the
    exception, a newline, and the stack trace. *)
Definition trace_format : string :=
  "%s" +:+ String "010"%char "Stack trace: %s".

(** errors.ErrorCodef: a new exception with the formatted text.  Every
    format of the package starts with literal text, so the text is not
    empty and [NewException] does not answer nil. *)
Definition ErrorCodef `{Library} (c : Code) (format : string)
    (a : list fmt_arg) : option error_value :=
  Some (ExceptionPtr (Some (mkException c (fmt_Sprintf format a)))).

(** ** Package shim (Fabric): the chaincode stub

    [shim.ChaincodeStubInterface], restricted to the three methods the
    package calls.  [S] is the state of the stub. *)

Class ChaincodeStubInterface (S : Type) := {
  GetState : S → string → (bytes * option error_value) * S;
  PutState : S → string → bytes → option error_value * S;
  DelState : S → string → option error_value * S }.

(** The calls made on the stub, in order (a ghost log). *)
Inductive StubCall :=
| GetStateCall (key : string)
| PutStateCall (key : string) (value : bytes)
| DelStateCall (key : string).

Definition is_write (c : StubCall) : bool :=
  match c with
  | GetStateCall _ => false
  | PutStateCall _ _ | DelStateCall _ => true
  end.

(** ** The adapter

    The two cache fields are the locations of the maps.  The field [stub]
    is not a field of the record: a world has one stub, the one given to
    [NewStateManager], and [NewCache] hands the same stub to the view. *)

Record stateManager := mkStateManager {
  storageCache : loc;
  accountCache : loc;
  error : option Exception;
  readonly : bool }.

#[global] Instance stateManager_inhabited : Inhabited stateManager :=
  populate (mkStateManager 0%nat 0%nat None false).

Definition with_error (m : stateManager) (e : option Exception)
  : stateManager :=
  mkStateManager (storageCache m) (accountCache m) e (readonly m).

Definition with_readonly (m : stateManager) (b : bool) : stateManager :=
  mkStateManager (storageCache m) (accountCache m) (error m) b.

(** ** The world: the stub, the heap of maps and the heap of adapters *)

Section StateManager.

Context `{Lib : Library} {S : Type} `{Stub : !ChaincodeStubInterface S}.

Record World := mkWorld {
  stub_state : S;
  stub_calls : list StubCall;
  storage_maps : gmap loc (gmap string Word256);
  account_maps : gmap loc (gmap string bytes);
  managers : gmap loc stateManager }.

Definition set_manager (st : loc) (m : stateManager) (w : World) : World :=
  mkWorld (stub_state w) (stub_calls w) (storage_maps w) (account_maps w)
          (<[st := m]> (managers w)).

Definition set_storage_map (r : loc) (c : gmap string Word256) (w : World)
  : World :=
  mkWorld (stub_state w) (stub_calls w) (<[r := c]> (storage_maps w))
          (account_maps w) (managers w).

Definition set_account_map (r : loc) (c : gmap string bytes) (w : World)
  : World :=
  mkWorld (stub_state w) (stub_calls w) (storage_maps w)
          (<[r := c]> (account_maps w)) (managers w).

Definition set_stub (s : S) (call : StubCall) (w : World) : World :=
  mkWorld s (stub_calls w ++ [call]) (storage_maps w) (account_maps w)
          (managers w).

(** Reading the fields of the receiver and the maps they point to. *)
Definition self (st : loc) : M World stateManager :=
  λ w, (managers w !!! st, w).

Definition storage_map (r : loc) : M World (gmap string Word256) :=
  λ w, (storage_maps w !!! r, w).

Definition account_map (r : loc) : M World (gmap string bytes) :=
  λ w, (account_maps w !!! r, w).

(** Writing a field of the receiver or a map, and allocating an adapter. *)
Definition put_manager (st : loc) (m : stateManager) : M World unit :=
  λ w, (tt, set_manager st m w).

Definition put_storage_map (r : loc) (c : gmap string Word256)
  : M World unit :=
  λ w, (tt, set_storage_map r c w).

Definition put_account_map (r : loc) (c : gmap string bytes)
  : M World unit :=
  λ w, (tt, set_account_map r c w).

Definition new_manager (m : stateManager) : M World loc :=
  λ w, let p := fresh (dom (managers w)) in (p, set_manager p m w).

(** The three calls on [st.stub]; each is appended to the log. *)
Definition stub_GetState (key : string)
  : M World (bytes * option error_value) :=
  λ w, let (r, s) := GetState (stub_state w) key in
       (r, set_stub s (GetStateCall key) w).

Definition stub_PutState (key : string) (value : bytes)
  : M World (option error_value) :=
  λ w, let (r, s) := PutState (stub_state w) key value in
       (r, set_stub s (PutStateCall key value) w).

Definition stub_DelState (key : string) : M World (option error_value) :=
  λ w, let (r, s) := DelState (stub_state w) key in
       (r, set_stub s (DelStateCall key) w).

(** ** The package *)

Definition ContractPermFlags : PermFlag :=
  Z.lor permission_Call permission_Send.

Definition ContractPerms : AccountPermissions :=
  mkAccountPermissions (mkBasePermissions ContractPermFlags ContractPermFlags)
                       [].

Definition NewStateManager : M World loc :=
  λ w, let a := fresh (dom (account_maps w)) in
       let s := fresh (dom (storage_maps w)) in
       let st := fresh (dom (managers w)) in
       (st, mkWorld (stub_state w) (stub_calls w)
                    (<[s := ∅]> (storage_maps w))
                    (<[a := ∅]> (account_maps w))
                    (<[st := mkStateManager s a None false]> (managers w))).

(** The loop of [NewCache] over its options. *)
Definition apply_options (newState : stateManager)
    (cacheOptions : list CacheOption) : stateManager :=
  fold_left (λ n option,
               match option with
               | ReadOnly => with_readonly n true
               | _ => n
               end) cacheOptions newState.

Definition NewCache (st : loc) (cacheOptions : list CacheOption)
  : M World loc :=
  let* m := self st in
  let newState := mkStateManager (storageCache m) (accountCache m) None false in
  let newState := apply_options newState cacheOptions in
  new_manager newState.

Definition Sync (st : loc) : M World (option Exception) :=
  let* m := self st in
  match error m with
  | Some e => ret (Some e)
  | None => ret None
  end.

Definition Error (st : loc) : M World (option Exception) :=
  let* m := self st in
  match error m with
  | None => ret None
  | Some e => ret (Some e)
  end.

(** The text of the exception is extended with the stack trace.  The source
    keeps the pointer that [AsException] returns and rewrites the text of
    that exception in place; here the latch holds the exception as a value.
    The two agree on what the adapter itself shows.  They differ for the
    other holders of a [*Exception] that is handed to [PushError] (the
    result of [Error()] of an adapter pushed on another one): the source
    changes the text they see.  [hands_over] marks these calls, and what is
    stated of the latch across calls leaves them out. *)
Definition PushError (st : loc) (err : option error_value) : M World unit :=
  let* m := self st in
  match error m with
  | None =>
      match AsException err with
      | Some ex =>
          let ex := mkException (ExceptionCode ex)
            (fmt_Sprintf trace_format
               [ArgString (ExceptionText ex); ArgString stack_Trace_String]) in
          put_manager st (with_error m (Some ex))
      | None => ret tt
      end
  | Some _ => ret tt
  end.

(** *** Reader *)

Definition compKey (address : Address) (key : Word256) : string :=
  Address_String address +:+ hex_EncodeToString (Word256_Bytes key).

(** A value of the store of more than 32 bytes makes
    [binary.LeftPadWord256] panic; the result is stated for at most 32. *)
Definition GetStorage (s : loc) (address : Address) (key : Word256)
  : M World Word256 :=
  let* m := self s in
  let* cache := storage_map (storageCache m) in
  match cache !! compKey address key with
  | Some val => ret val
  | None =>
      let* (val, err) := stub_GetState (compKey address key) in
      match err with
      | Some _ => PushError s err ;; ret Zero256
      | None => ret (LeftPadWord256 val)
      end
  end.

Definition GetAccount (s : loc) (address : Address)
  : M World (option Account * option error_value) :=
  let* m := self s in
  let* cache := account_map (accountCache m) in
  let* (serializedAccount, err) :=
    match cache !! Address_String address with
    | Some val => ret (val, None)
    | None => stub_GetState (Address_String address)
    end in
  match err with
  | Some _ => ret (None, err)
  | None =>
      if (length serializedAccount =? 0)%nat then ret (None, None)
      else
        let (acct, err) :=
          Account_Unmarshal (ZeroAccount address) serializedAccount in
        match err with
        | Some _ => ret (None, err)
        | None => ret (Some acct, None)
        end
  end.

Definition account (st : loc) (address : Address)
  : M World (option Account) :=
  let* (acc, err) := GetAccount st address in
  match err with
  | Some _ => PushError st err ;; ret acc
  | None => ret acc
  end.

Definition mustAccount (st : loc) (address : Address)
  : M World (option Account) :=
  let* acc := account st address in
  match acc with
  | None =>
      PushError st (ErrorCodef ErrorCodeIllegalWrite
        "attempted to modify non-existent account: %v" [ArgAddress address]) ;;
      ret acc
  | Some _ => ret acc
  end.

Definition GetBalance (st : loc) (address : Address) : M World Z :=
  let* acc := account st address in
  match acc with
  | None => ret 0
  | Some acc => ret (Balance acc)
  end.

Definition GetPermissions (st : loc) (address : Address)
  : M World AccountPermissions :=
  let* acc := account st address in
  match acc with
  | None => ret ZeroPermissions
  | Some acc => ret (Permissions acc)
  end.

Definition GetCode (st : loc) (address : Address) : M World bytes :=
  let* acc := account st address in
  match acc with
  | None => ret []
  | Some acc => ret (Code_ acc)
  end.

Definition Exists (st : loc) (address : Address) : M World bool :=
  let* (acc, err) := GetAccount st address in
  match err with
  | Some _ => PushError st err ;; ret false
  | None =>
      match acc with
      | None => ret false
      | Some _ => ret true
      end
  end.

Definition GetSequence (st : loc) (address : Address) : M World Z :=
  let* acc := account st address in
  match acc with
  | None => ret 0
  | Some acc => ret (Sequence acc)
  end.

(** *** The unexported helpers *)

Definition updateAccount (st : loc) (updatedAccount : Account)
  : M World unit :=
  let (serializedAccount, err) := Account_Marshal updatedAccount in
  match err with
  | Some _ => PushError st err
  | None =>
      let* m := self st in
      let* cache := account_map (accountCache m) in
      put_account_map (accountCache m)
        (<[Address_String (Address_ updatedAccount) := serializedAccount]>
           cache) ;;
      let* err := stub_PutState (Address_String (Address_ updatedAccount))
                                serializedAccount in
      match err with
      | Some _ => PushError st err
      | None => ret tt
      end
  end.

Definition removeAccount (s : loc) (address : Address)
  : M World (option error_value) :=
  let* m := self s in
  let* cache := account_map (accountCache m) in
  match cache !! Address_String address with
  | Some _ =>
      put_account_map (accountCache m)
        (delete (Address_String address) cache)
  | None => ret tt
  end ;;
  stub_DelState (Address_String address).

(** *** Writer *)

Definition CreateAccount (st : loc) (address : Address) : M World unit :=
  let* ex := Exists st address in
  if ex then
    let* (acc, _) := GetAccount st address in
    PushError st (ErrorCodef ErrorCodeDuplicateAddress
      "tried to create an account at an address that already exists: %v %v"
      [ArgAddress address; ArgAccount acc])
  else
    updateAccount st
      (mkAccount address [] 0 0 [] ContractPerms).

Definition InitCode (st : loc) (address : Address) (code : bytes)
  : M World unit :=
  let* acc := mustAccount st address in
  match acc with
  | None =>
      PushError st (ErrorCodef ErrorCodeInvalidAddress
        "tried to initialise code for an account that does not exist: %v"
        [ArgAddress address])
  | Some acc =>
      (* acc.Code != nil && acc.Code.Size() > 0 *)
      if (0 <? length (Code_ acc))%nat then
        PushError st (ErrorCodef ErrorCodeIllegalWrite
          "tried to initialise code for a contract that already exists: %v existing code %v"
          [ArgAddress address; ArgBytes (Code_ acc)])
      else
        updateAccount st (with_Code acc code)
  end.

Definition RemoveAccount (st : loc) (address : Address) : M World unit :=
  let* ex := Exists st address in
  if negb ex then
    PushError st (ErrorCodef ErrorCodeDuplicateAddress
      "tried to remove an account at an address that does not exist: %v"
      [ArgAddress address])
  else
    let* err := removeAccount st address in
    match err with
    | Some _ => PushError st err
    | None => ret tt
    end.

Definition SetStorage (s : loc) (address : Address) (key value : Word256)
  : M World unit :=
  let* err := stub_PutState (compKey address key) (Word256_Bytes value) in
  match err with
  | None =>
      let* m := self s in
      let* cache := storage_map (storageCache m) in
      put_storage_map (storageCache m)
        (<[compKey address key := value]> cache)
  | Some _ => ret tt
  end ;;
  match err with
  | Some _ => PushError s err
  | None => ret tt
  end.

Definition AddToBalance (st : loc) (address : Address) (amount : Z)
  : M World unit :=
  let* acc := mustAccount st address in
  match acc with
  | None => ret tt
  | Some acc =>
      if IsUint64SumOverflow (Balance acc) amount then
        PushError st (ErrorCodef ErrorCodeIntegerOverflow
          "uint64 overflow: attempt to add %v to the balance of %s"
          [ArgUint64 amount; ArgAddress address])
      else
        updateAccount st (with_Balance acc (wrap64 (Balance acc + amount)))
  end.

Definition SubtractFromBalance (st : loc) (address : Address) (amount : Z)
  : M World unit :=
  let* acc := mustAccount st address in
  match acc with
  | None => ret tt
  | Some acc =>
      if Balance acc <? amount then
        PushError st (ErrorCodef ErrorCodeInsufficientBalance
          "insufficient funds: attempt to subtract %v from the balance of %s"
          [ArgUint64 amount; ArgAddress (Address_ acc)])
      else
        updateAccount st (with_Balance acc (wrap64 (Balance acc - amount)))
  end.

Definition SetPermission (st : loc) (address : Address) (permFlag : PermFlag)
    (value : bool) : M World unit :=
  let* acc := mustAccount st address in
  match acc with
  | None => ret tt
  | Some acc =>
      updateAccount st
        (with_Permissions acc
           (with_Base (Permissions acc)
              (BasePermissions_Set (Base (Permissions acc)) permFlag value)))
  end.

Definition UnsetPermission (st : loc) (address : Address)
    (permFlag : PermFlag) : M World unit :=
  let* acc := mustAccount st address in
  match acc with
  | None => ret tt
  | Some acc =>
      updateAccount st
        (with_Permissions acc
           (with_Base (Permissions acc)
              (BasePermissions_Unset (Base (Permissions acc)) permFlag)))
  end.

Definition AddRole (st : loc) (address : Address) (role : string)
  : M World bool :=
  let* acc := mustAccount st address in
  match acc with
  | None => ret false
  | Some acc =>
      let (added, perms) :=
        AccountPermissions_AddRole (Permissions acc) role in
      updateAccount st (with_Permissions acc perms) ;;
      ret added
  end.

Definition RemoveRole (st : loc) (address : Address) (role : string)
  : M World bool :=
  let* acc := mustAccount st address in
  match acc with
  | None => ret false
  | Some acc =>
      let (removed, perms) :=
        AccountPermissions_RemoveRole (Permissions acc) role in
      updateAccount st (with_Permissions acc perms) ;;
      ret removed
  end.

Definition IncSequence (st : loc) (address : Address) : M World unit :=
  let* acc := mustAccount st address in
  match acc with
  | None => ret tt
  | Some acc => updateAccount st (with_Sequence acc (wrap64 (Sequence acc + 1)))
  end.

(** ** Observations and runs *)

(** The latched error of an adapter, the maps behind its two cache fields,
    and the writes among the calls made on the stub. *)
Definition latched (st : loc) (w : World) : option Exception :=
  error (managers w !!! st).

Definition accounts_of (st : loc) (w : World) : gmap string bytes :=
  account_maps w !!! accountCache (managers w !!! st).

Definition storage_of (st : loc) (w : World) : gmap string Word256 :=
  storage_maps w !!! storageCache (managers w !!! st).

Definition writes (w : World) : list StubCall :=
  List.filter is_write (stub_calls w).

(** What [PushError] stores for an exception, and the latch after pushing
    [err] on the latch [old]: the first error stays. *)
Definition traced (ex : Exception) : Exception :=
  mkException (ExceptionCode ex)
    (fmt_Sprintf trace_format
       [ArgString (ExceptionText ex); ArgString stack_Trace_String]).

Definition latch (old : option Exception) (err : option error_value)
  : option Exception :=
  match old with
  | Some e => Some e
  | None => traced <$> AsException err
  end.

(** The latch [new] is the latch [old] after an error of code [c] was
    pushed on it. *)
Definition latches (old : option Exception) (c : Code)
    (new : option Exception) : Prop :=
  match old with
  | Some e => new = Some e
  | None => ∃ ex, new = Some ex ∧ ExceptionCode ex = c
  end.

(** A call of a method of the interface, and its run on an adapter. *)
Inductive Call :=
| CallNewCache (cacheOptions : list CacheOption)
| CallSync
| CallError
| CallPushError (err : option error_value)
| CallGetStorage (address : Address) (key : Word256)
| CallGetBalance (address : Address)
| CallGetPermissions (address : Address)
| CallGetCode (address : Address)
| CallExists (address : Address)
| CallGetSequence (address : Address)
| CallGetAccount (address : Address)
| CallCreateAccount (address : Address)
| CallInitCode (address : Address) (code : bytes)
| CallRemoveAccount (address : Address)
| CallSetStorage (address : Address) (key value : Word256)
| CallAddToBalance (address : Address) (amount : Z)
| CallSubtractFromBalance (address : Address) (amount : Z)
| CallSetPermission (address : Address) (permFlag : PermFlag) (value : bool)
| CallUnsetPermission (address : Address) (permFlag : PermFlag)
| CallAddRole (address : Address) (role : string)
| CallRemoveRole (address : Address) (role : string)
| CallIncSequence (address : Address).

Definition run (st : loc) (c : Call) : M World unit :=
  match c with
  | CallNewCache o => NewCache st o ;; ret tt
  | CallSync => Sync st ;; ret tt
  | CallError => Error st ;; ret tt
  | CallPushError err => PushError st err
  | CallGetStorage a k => GetStorage st a k ;; ret tt
  | CallGetBalance a => GetBalance st a ;; ret tt
  | CallGetPermissions a => GetPermissions st a ;; ret tt
  | CallGetCode a => GetCode st a ;; ret tt
  | CallExists a => Exists st a ;; ret tt
  | CallGetSequence a => GetSequence st a ;; ret tt
  | CallGetAccount a => GetAccount st a ;; ret tt
  | CallCreateAccount a => CreateAccount st a
  | CallInitCode a c => InitCode st a c
  | CallRemoveAccount a => RemoveAccount st a
  | CallSetStorage a k v => SetStorage st a k v
  | CallAddToBalance a z => AddToBalance st a z
  | CallSubtractFromBalance a z => SubtractFromBalance st a z
  | CallSetPermission a f v => SetPermission st a f v
  | CallUnsetPermission a f => UnsetPermission st a f
  | CallAddRole a r => AddRole st a r ;; ret tt
  | CallRemoveRole a r => RemoveRole st a r ;; ret tt
  | CallIncSequence a => IncSequence st a
  end.

(** The mutating operations of the interface. *)
Definition is_mutator (c : Call) : bool :=
  match c with
  | CallCreateAccount _ | CallInitCode _ _ | CallRemoveAccount _
  | CallSetStorage _ _ _ | CallAddToBalance _ _
  | CallSubtractFromBalance _ _ | CallSetPermission _ _ _
  | CallUnsetPermission _ _ | CallAddRole _ _ | CallRemoveRole _ _
  | CallIncSequence _ => true
  | _ => false
  end.

(** A sequence of calls, each on its adapter. *)
Fixpoint run_all (cs : list (loc * Call)) : M World unit :=
  match cs with
  | [] => ret tt
  | (st, c) :: cs => run st c ;; run_all cs
  end.

(** The account [GetAccount] makes of the serialized bytes it found. *)
Definition decode (address : Address) (serializedAccount : bytes)
  : option Account * option error_value :=
  if (length serializedAccount =? 0)%nat then (None, None)
  else
    let (acct, err) :=
      Account_Unmarshal (ZeroAccount address) serializedAccount in
    match err with
    | Some _ => (None, err)
    | None => (Some acct, None)
    end.

(** Relations between the world before and after a computation. *)
Definition preserves {A} (R : World → World → Prop) (m : M World A) : Prop :=
  ∀ w, R w (after m w).

(** Every latched error is still latched. *)
Definition keeps_latches (w w' : World) : Prop :=
  ∀ q e, latched q w = Some e → latched q w' = Some e.

(** Every adapter other than [st] is as it was. *)
Definition frames (st : loc) (w w' : World) : Prop :=
  ∀ q m, q ≠ st → managers w !! q = Some m → managers w' !! q = Some m.

(** Every adapter still points to the same two maps. *)
Definition keeps_pointers (w w' : World) : Prop :=
  ∀ q m, managers w !! q = Some m →
         ∃ m', managers w' !! q = Some m' ∧
               storageCache m' = storageCache m ∧
               accountCache m' = accountCache m.


(** The call changes neither the latch nor a map, and makes no write on
    the store. *)
Definition silent_noop (st : loc) (c : Call) (w : World) : Prop :=
  let w' := after (run st c) w in
  latched st w' = latched st w ∧ storage_maps w' = storage_maps w ∧
  account_maps w' = account_maps w ∧ writes w' = writes w.

(** A read of a slot that misses the cache stores what it read in the
    cache, and the same read again makes no call on the store. *)
Definition storage_read_is_cached (s : loc) (address : Address)
    (key : Word256) (w : World) : Prop :=
  storage_of s w !! compKey address key = None →
  let w1 := after (GetStorage s address key) w in
  storage_of s w1 !! compKey address key
    = Some (result (GetStorage s address key) w) ∧
  stub_calls (after (GetStorage s address key) w1) = stub_calls w1.

(** Only reads were made on the stub, and the maps and the adapters are
    as they were. *)
Definition reads_only (w w' : World) : Prop :=
  storage_maps w' = storage_maps w ∧ account_maps w' = account_maps w ∧
  managers w' = managers w ∧ writes w' = writes w.

(** The maps are as they were and no write was made on the stub. *)
Definition untouched (w w' : World) : Prop :=
  storage_maps w' = storage_maps w ∧ account_maps w' = account_maps w ∧
  writes w' = writes w.

(** The contract of [binary.IsUint64SumOverflow]. *)
Definition IsUint64SumOverflow_correct : Prop :=
  ∀ a b, is_uint64 a → is_uint64 b →
         (IsUint64SumOverflow a b = true ↔ MaxUint64 < a + b).

(** The store accepts the write of a slot in the world [w]. *)
Definition store_accepts (address : Address) (key value : Word256)
    (w : World) : Prop :=
  fst (PutState (stub_state w) (compKey address key) (Word256_Bytes value))
    = None.

(** The account that [CreateAccount] writes at an address. *)
Definition NewAccount (address : Address) : Account :=
  mkAccount address [] 0 0 [] ContractPerms.

(** The address of the account that a call fetches with [mustAccount]. *)
Definition mustAccount_of (c : Call) : option Address :=
  match c with
  | CallInitCode a _ | CallAddToBalance a _ | CallSubtractFromBalance a _
  | CallSetPermission a _ _ | CallUnsetPermission a _ | CallAddRole a _
  | CallRemoveRole a _ | CallIncSequence a => Some a
  | _ => None
  end.

(** The reading operations of the interface. *)
Definition is_reader (c : Call) : bool :=
  match c with
  | CallSync | CallError | CallGetStorage _ _ | CallGetBalance _
  | CallGetPermissions _ | CallGetCode _ | CallExists _ | CallGetSequence _
  | CallGetAccount _ => true
  | _ => false
  end.

(** What a call may do to the world: call [GetState], [PutState] or
    [DelState] on the stub, write a storage map or an account map, write
    the latch of its adapter, or allocate an adapter. *)
Inductive effect :=
| ReadsStore
| PutsStore
| DeletesStore
| WritesStorageCache
| WritesAccountCache
| WritesLatch
| Allocates.

Definition effects (c : Call) : list effect :=
  match c with
  | CallNewCache _ => [Allocates]
  | CallSync | CallError => []
  | CallPushError _ => [WritesLatch]
  | CallGetAccount _ => [ReadsStore]
  | CallGetStorage _ _ | CallGetBalance _ | CallGetPermissions _
  | CallGetCode _ | CallExists _ | CallGetSequence _ =>
      [ReadsStore; WritesLatch]
  | CallSetStorage _ _ _ => [PutsStore; WritesStorageCache; WritesLatch]
  | CallRemoveAccount _ =>
      [ReadsStore; DeletesStore; WritesAccountCache; WritesLatch]
  | CallCreateAccount _ | CallInitCode _ _ | CallAddToBalance _ _
  | CallSubtractFromBalance _ _ | CallSetPermission _ _ _
  | CallUnsetPermission _ _ | CallAddRole _ _ | CallRemoveRole _ _
  | CallIncSequence _ =>
      [ReadsStore; PutsStore; WritesAccountCache; WritesLatch]
  end.

(** The relation [R] holds across an effect made for the adapter [st]. *)
Definition respects (R : World → World → Prop) (st : loc) (e : effect)
  : Prop :=
  match e with
  | ReadsStore => ∀ w s key, R w (set_stub s (GetStateCall key) w)
  | PutsStore => ∀ w s key value, R w (set_stub s (PutStateCall key value) w)
  | DeletesStore => ∀ w s key, R w (set_stub s (DelStateCall key) w)
  | WritesStorageCache => ∀ w r c, R w (set_storage_map r c w)
  | WritesAccountCache => ∀ w r c, R w (set_account_map r c w)
  | WritesLatch =>
      ∀ w e, latched st w = None →
             R w (set_manager st (with_error (managers w !!! st) (Some e)) w)
  | Allocates => ∀ w m, R w (set_manager (fresh (dom (managers w))) m w)
  end.

(** The storage maps, and the account maps, are as they were. *)
Definition same_storage (w w' : World) : Prop :=
  storage_maps w' = storage_maps w.

Definition same_accounts (w w' : World) : Prop :=
  account_maps w' = account_maps w.

(** The store accepts, or refuses with [e], the write of a slot. *)
Definition store_refuses (address : Address) (key value : Word256)
    (e : error_value) (w : World) : Prop :=
  fst (PutState (stub_state w) (compKey address key) (Word256_Bytes value))
    = Some e.

(** The calls that hand a [*Exception] to [PushError]. *)
Definition hands_over (c : Call) : bool :=
  match c with
  | CallPushError (Some (ExceptionPtr (Some _))) => true
  | _ => false
  end.

(** The world with the latch of [st] emptied; two worlds that are the same
    but for the latch of [st]; a computation whose result and whose effect
    on all but the latch of [st] do not depend on that latch. *)
Definition forget_latch (st : loc) (w : World) : World :=
  set_manager st (with_error (managers w !!! st) None) w.

Definition same_but_latch (st : loc) (w w0 : World) : Prop :=
  forget_latch st w = forget_latch st w0.

Definition ignores_latch {A} (st : loc) (m : M World A) : Prop :=
  ∀ w w0, same_but_latch st w w0 →
          result m w = result m w0 ∧
          same_but_latch st (after m w) (after m w0).

End StateManager.

Arguments World : clear implicits.

(** ** Package main (evmcc): the chaincode

    [getCode] of [evmcc/evmcc.go], the query of the code of a contract.
    A [pb.Response] is what [shim.Success] or [shim.Error] builds; a Go
    function returns or panics; the functions of the libraries that
    [getCode] calls are the fields of [ChaincodeLibrary]. *)

Inductive Response :=
| shim_Success (payload : bytes)
| shim_Error (msg : string).

Inductive outcome (A : Type) :=
| Returned (a : A)
| Panicked.

Arguments Returned {A} a.
Arguments Panicked {A}.

Class ChaincodeLibrary := {
  (** hex.DecodeString *)
  hex_DecodeString : string → bytes * option error_value;
  (** crypto.AddressFromBytes *)
  AddressFromBytes : bytes → Address * option error_value;
  (** the method Error of a value of the interface error *)
  error_Error : error_value → string }.

Section Evmcc.

Context `{Lib : Library} `{CLib : ChaincodeLibrary} {S : Type}
        `{Stub : !ChaincodeStubInterface S}.

(** [err.Error()] is a call on the variable [err] of the function, which
    is nil where the latch is tested: a call of a method on a nil
    interface panics. *)
Definition getCode (state : loc) (address : bytes)
  : M (World S) (outcome Response) :=
  let (c, err) := hex_DecodeString (string_of_list_byte address) in
  match err with
  | Some e =>
      ret (Returned (shim_Error
        (fmt_Sprintf "failed to decode callee address from %s: %s"
           [ArgString (string_of_list_byte address);
            ArgString (error_Error e)])))
  | None =>
      let (calleeAddr, err) := AddressFromBytes c in
      match err with
      | Some e =>
          ret (Returned (shim_Error
            (fmt_Sprintf "failed to get callee address: %s"
               [ArgString (error_Error e)])))
      | None =>
          let* code := GetCode state calleeAddr in
          let* latch := Error state in
          match latch with
          | Some _ =>
              match err with
              | Some e =>
                  ret (Returned (shim_Error
                    (fmt_Sprintf "failed to get contract account: %s"
                       [ArgString (error_Error e)])))
              | None => ret Panicked
              end
          | None =>
              ret (Returned (shim_Success
                (list_byte_of_string (hex_EncodeToString code))))
          end
      end
  end.

End Evmcc.

(** ** Executable instances

    The stub of the package's test suite and an executable instance of the
    library interface, to run the adapter on concrete inputs. *)

Module Fixture.

(** *** The mock stub of [statemanager_test.go]

    [PutState] writes to a ledger that [GetState] does not read, as in the
    test suite; [GetStateReturns], [PutStateReturns] and [DelStateReturns]
    replace a method by fixed results. *)

Record MockStub := mkMockStub {
  fakeGetLedger : gmap string bytes;
  fakePutLedger : gmap string bytes;
  GetStateReturns : option (bytes * option error_value);
  PutStateReturns : option (option error_value);
  DelStateReturns : option (option error_value) }.

Definition MockStub_GetState (s : MockStub) (key : string)
  : (bytes * option error_value) * MockStub :=
  match GetStateReturns s with
  | Some r => (r, s)
  | None => ((default [] (fakeGetLedger s !! key), None), s)
  end.

Definition MockStub_PutState (s : MockStub) (key : string) (value : bytes)
  : option error_value * MockStub :=
  match PutStateReturns s with
  | Some r => (r, s)
  | None =>
      (None, mkMockStub (fakeGetLedger s) (<[key := value]> (fakePutLedger s))
                        (GetStateReturns s) (PutStateReturns s)
                        (DelStateReturns s))
  end.

Definition MockStub_DelState (s : MockStub) (key : string)
  : option error_value * MockStub :=
  match DelStateReturns s with
  | Some r => (r, s)
  | None =>
      (None, mkMockStub (fakeGetLedger s) (delete key (fakePutLedger s))
                        (GetStateReturns s) (PutStateReturns s)
                        (DelStateReturns s))
  end.

#[global] Instance MockStub_stub : ChaincodeStubInterface MockStub := {
  GetState := MockStub_GetState;
  PutState := MockStub_PutState;
  DelState := MockStub_DelState }.

(** A mock over a given read ledger, with nothing written yet. *)
Definition mock (ledger : gmap string bytes) : MockStub :=
  mkMockStub ledger ∅ None None None.

(** *** An instance of the library *)

Definition hex_digit (upper : bool) (n : N) : Ascii.ascii :=
  let digits :=
    if upper then "0123456789ABCDEF"%string else "0123456789abcdef"%string in
  default "0"%char (String.get (N.to_nat n) digits).

Definition hex_encode (upper : bool) (b : bytes) : string :=
  fold_right (λ x s,
                let n := Byte.to_N x in
                String (hex_digit upper (n / 16)%N)
                       (String (hex_digit upper (n mod 16)%N) s))
             EmptyString b.

Definition byte_of_Z (z : Z) : Byte.byte :=
  default Byte.x00 (Byte.of_N (Z.to_N (z mod 256))).

Definition Z_of_byte (b : Byte.byte) : Z := Z.of_N (Byte.to_N b).

(** The left padding to 32 bytes, of at most 32 bytes: the function of
    Burrow panics on more, and the fixture is not used there. *)
Definition leftPad (bz : bytes) : Word256 :=
  replicate (32 - length bz) Byte.x00 ++ bz.

(** A stand-in for the protobuf encoding of an account: a tag byte and the
    fields in order, integers on 8 bytes, slices and strings prefixed by
    their length. *)
Definition put_u64 (z : Z) : bytes :=
  map (λ i, byte_of_Z (z / 2 ^ (8 * i))) [7; 6; 5; 4; 3; 2; 1; 0].

Definition put_bytes (b : bytes) : bytes :=
  put_u64 (Z.of_nat (length b)) ++ b.

Definition put_string (s : string) : bytes :=
  put_bytes (list_byte_of_string s).

Definition marshal (a : Account) : bytes * option error_value :=
  (Byte.x0a :: put_bytes (Address_ a) ++ put_bytes (PublicKey a)
     ++ put_u64 (Sequence a) ++ put_u64 (Balance a) ++ put_bytes (Code_ a)
     ++ put_u64 (Perms (Base (Permissions a)))
     ++ put_u64 (SetBit (Base (Permissions a)))
     ++ put_u64 (Z.of_nat (length (Roles (Permissions a))))
     ++ concat (map put_string (Roles (Permissions a))),
   None).

Definition get_u64 (b : bytes) : option (Z * bytes) :=
  if (length b <? 8)%nat then None
  else Some (fold_left (λ z x, z * 256 + Z_of_byte x) (take 8 b) 0, drop 8 b).

Definition get_bytes (b : bytes) : option (bytes * bytes) :=
  match get_u64 b with
  | Some (n, rest) =>
      if (length rest <? Z.to_nat n)%nat then None
      else Some (take (Z.to_nat n) rest, drop (Z.to_nat n) rest)
  | None => None
  end.

Fixpoint get_strings (n : nat) (b : bytes) : option (list string * bytes) :=
  match n with
  | O => Some ([], b)
  | Datatypes.S n =>
      match get_bytes b with
      | Some (s, rest) =>
          match get_strings n rest with
          | Some (l, rest) => Some (string_of_list_byte s :: l, rest)
          | None => None
          end
      | None => None
      end
  end.

Definition parse (data : bytes) : option Account :=
  match data with
  | tag :: data =>
      '(addr, data) ← get_bytes data;
      '(pk, data) ← get_bytes data;
      '(seq, data) ← get_u64 data;
      '(bal, data) ← get_u64 data;
      '(code, data) ← get_bytes data;
      '(perms, data) ← get_u64 data;
      '(setbit, data) ← get_u64 data;
      '(n, data) ← get_u64 data;
      '(roles, data) ← get_strings (Z.to_nat n) data;
      Some (mkAccount addr pk seq bal code
              (mkAccountPermissions (mkBasePermissions perms setbit) roles))
  | [] => None
  end.

Definition unmarshal (receiver : Account) (data : bytes)
  : Account * option error_value :=
  match parse data with
  | Some a => (a, None)
  | None => (receiver, Some (PlainErr "unexpected EOF"))
  end.

(** Burrow's permission operations. *)
Definition set_perm (bp : BasePermissions) (ty : PermFlag) (value : bool)
  : BasePermissions :=
  if ty =? 0 then bp
  else mkBasePermissions
         (if value then Z.lor (Perms bp) ty else Z.ldiff (Perms bp) ty)
         (Z.lor (SetBit bp) ty).

Definition unset_perm (bp : BasePermissions) (ty : PermFlag)
  : BasePermissions :=
  if ty =? 0 then bp
  else mkBasePermissions (Perms bp) (Z.ldiff (SetBit bp) ty).

(** Burrow's roles: [AddRole] and [RemoveRole] first pad the role on the
    right with zero bytes up to 32 bytes (binary.RightPadBytes), compare the
    padded role with the roles of the account, and append the padded role,
    or cut out its first occurrence. *)
Definition pad_role (role : string) : string :=
  role +:+
  string_of_list_ascii (replicate (32 - String.length role) "000"%char).

Fixpoint cut_role (role : string) (roles : list string) : list string :=
  match roles with
  | [] => []
  | r :: roles =>
      if bool_decide (r = role) then roles else r :: cut_role role roles
  end.

Definition add_role (ap : AccountPermissions) (role : string)
  : bool * AccountPermissions :=
  let role := pad_role role in
  if bool_decide (role ∈ Roles ap) then (false, ap)
  else (true, mkAccountPermissions (Base ap) (Roles ap ++ [role])).

Definition remove_role (ap : AccountPermissions) (role : string)
  : bool * AccountPermissions :=
  let role := pad_role role in
  if bool_decide (role ∈ Roles ap)
  then (true, mkAccountPermissions (Base ap) (cut_role role (Roles ap)))
  else (false, ap).

(** A stand-in for [fmt.Sprintf]: each verb is replaced by the next
    argument, an address and a slice in hexadecimal, a number in decimal. *)
Definition render (x : fmt_arg) : string :=
  match x with
  | ArgAddress a => hex_encode true a
  | ArgAccount (Some acc) => "&{" +:+ hex_encode true (Address_ acc) +:+ "}"
  | ArgAccount None => "<nil>"
  | ArgBytes b => hex_encode false b
  | ArgUint64 z => NilZero.string_of_uint (N.to_uint (Z.to_N z))
  | ArgString s => s
  end.

Fixpoint sprintf (format : string) (a : list fmt_arg) : string :=
  match format with
  | EmptyString => EmptyString
  | String "%" (String _ rest) =>
      match a with
      | x :: a => render x +:+ sprintf rest a
      | [] => "%!v(MISSING)" +:+ sprintf rest []
      end
  | String c rest => String c (sprintf rest a)
  end.

#[global] Instance library : Library := {
  Address_String := hex_encode true;
  hex_EncodeToString := hex_encode false;
  LeftPadWord256 := leftPad;
  IsUint64SumOverflow a b := MaxUint64 - a <? b;
  Account_Marshal := marshal;
  Account_Unmarshal := unmarshal;
  BasePermissions_Set := set_perm;
  BasePermissions_Unset := unset_perm;
  AccountPermissions_AddRole := add_role;
  AccountPermissions_RemoveRole := remove_role;
  permission_Call := 4;
  permission_Send := 2;
  fmt_Sprintf := sprintf;
  stack_Trace_String := "" }.

(** An instance of the library of the chaincode: the decoding of
    hexadecimal text, addresses of 20 bytes, the text of an error. *)
Definition hex_value (c : Ascii.ascii) : option N :=
  let n := N_of_ascii c in
  if (48 <=? n)%N && (n <=? 57)%N then Some (n - 48)%N
  else if (97 <=? n)%N && (n <=? 102)%N then Some (n - 87)%N
  else if (65 <=? n)%N && (n <=? 70)%N then Some (n - 55)%N
  else None.

Fixpoint hex_decode (s : string) : option bytes :=
  match s with
  | EmptyString => Some []
  | String a (String b rest) =>
      match hex_value a, hex_value b, hex_decode rest with
      | Some h, Some l, Some bs =>
          Some (default Byte.x00 (Byte.of_N (16 * h + l)) :: bs)
      | _, _, _ => None
      end
  | String _ EmptyString => None
  end.

#[global] Instance chaincode_library : ChaincodeLibrary := {
  hex_DecodeString s :=
    match hex_decode s with
    | Some b => (b, None)
    | None => ([], Some (PlainErr "encoding/hex: invalid byte"))
    end;
  AddressFromBytes b :=
    if (length b =? 20)%nat then (b, None)
    else ([], Some (PlainErr "slice passed as address has wrong length"));
  error_Error e :=
    match e with
    | ExceptionPtr (Some ex) => ExceptionText ex
    | ExceptionPtr None => ""
    | CodedErr _ text | PlainErr text => text
    end }.

(** The world of a test: one mock stub and no adapter yet. *)
Definition world (stub : MockStub) : World MockStub :=
  mkWorld stub [] ∅ ∅ ∅.

(** "0000000000000address", the address of the test suite. *)
Definition addr : Address := list_byte_of_string "0000000000000address".

(** acm.Account{Address: addr, Balance: b, Code: code} *)
Definition an_account (b : Z) (code : bytes) : Account :=
  mkAccount addr [] 0 b code ZeroPermissions.

(** A read ledger that holds the account at its address. *)
Definition ledger_of (acc : Account) : gmap string bytes :=
  {[ hex_encode true (Address_ acc) := fst (marshal acc) ]}.

(** The world after [NewStateManager(mockStub)]; the adapter is at 0. *)
Definition started (ledger : gmap string bytes) : World MockStub :=
  after NewStateManager (world (mock ledger)).

Definition sm : loc := 0%nat.

(** The world of the tests on an account of balance [b]. *)
Definition funded (b : Z) : World MockStub :=
  started (ledger_of (an_account b [])).

(** The world after a subtraction that the balance does not cover: the
    insufficient-balance error is latched. *)
Definition overdrawn : World MockStub :=
  after (SubtractFromBalance sm addr 200) (funded 123).

(** The same world with an empty latch: the account was read, and no
    subtraction failed. *)
Definition solvent : World MockStub :=
  after (GetBalance sm addr) (funded 123).

Definition overdrawn_error : Exception :=
  traced (mkException ErrorCodeInsufficientBalance
    (sprintf
       "insufficient funds: attempt to subtract %v from the balance of %s"
       [ArgUint64 200; ArgAddress addr])).

(** The slot of the tests: key "key", values "storage-value" and
    "updated-storage-value"; the read ledger holds the first value. *)
Definition slot_key : Word256 := leftPad (list_byte_of_string "key").
Definition initialVal : Word256 :=
  leftPad (list_byte_of_string "storage-value").
Definition updatedVal : Word256 :=
  leftPad (list_byte_of_string "updated-storage-value").

Definition slot_ledger : gmap string bytes :=
  {[ compKey addr slot_key := Word256_Bytes initialVal ]}.

Definition some_code : bytes := list_byte_of_string "account code".

(** errors.New("boom!") and the mocks whose calls return it. *)
Definition boom : option error_value := Some (PlainErr "boom!").

Definition failing_get : MockStub :=
  mkMockStub ∅ ∅ (Some ([], boom)) None None.

Definition failing_put (ledger : gmap string bytes) : MockStub :=
  mkMockStub ledger ∅ None (Some boom) None.

Definition failing_del (ledger : gmap string bytes) : MockStub :=
  mkMockStub ledger ∅ None None (Some boom).

(** The world after [NewStateManager] on a given mock. *)
Definition started_on (stub : MockStub) : World MockStub :=
  after NewStateManager (world stub).

(** PutStateCallCount and DelStateCallCount *)
Definition PutStateCallCount (w : World MockStub) : nat :=
  length (List.filter (λ c, match c with PutStateCall _ _ => true | _ => false end)
                      (stub_calls w)).

Definition DelStateCallCount (w : World MockStub) : nat :=
  length (List.filter (λ c, match c with DelStateCall _ => true | _ => false end)
                      (stub_calls w)).

(** The world after [CreateAccount] on an empty ledger: the account is in
    the account cache. *)
Definition created : World MockStub :=
  after (CreateAccount sm addr) (started ∅).

(** The account that [CreateAccount] makes at [addr]. *)
Definition created_account : Account :=
  mkAccount addr [] 0 0 []
    (mkAccountPermissions (mkBasePermissions 6 6) []).

(** An account whose sequence is the last uint64. *)
Definition last_sequence : Account :=
  mkAccount addr [] MaxUint64 0 [] ZeroPermissions.

(** An account with the role "admin", as [AddRole] stores it. *)
Definition an_admin : Account :=
  mkAccount addr [] 0 123 []
    (mkAccountPermissions (mkBasePermissions 0 0) [pad_role "admin"]).

(** A second address and a ledger with an account at each address. *)
Definition addr2 : Address := list_byte_of_string "000000000000address2".

Definition two_accounts : World MockStub :=
  started (ledger_of (an_account 100 []) ∪
           ledger_of (mkAccount addr2 [] 0 7 [] ZeroPermissions)).

(** The argument of the query of the code at [addr]: the address in
    hexadecimal. *)
Definition hex_addr : bytes := list_byte_of_string (hex_encode false addr).

End Fixture.


(** * Properties *)

Section Properties.

Context `{Lib : Library} {S : Type} `{Stub : !ChaincodeStubInterface S}.

Implicit Types (w : World S) (st q : loc).

(** ** Running the monad *)

Lemma bind_run {A B} (m : M (World S) A) (k : A → M (World S) B) w a w1 :
  m w = (a, w1) → bind m k w = k a w1.
Proof. intros E. unfold bind. now rewrite E. Qed.

Lemma run_pair {A} (m : M (World S) A) w : m w = (result m w, after m w).
Proof. unfold result, after. now destruct (m w). Qed.

Lemma after_bind {A B} (m : M (World S) A) (k : A → M (World S) B) w :
  after (bind m k) w = after (k (result m w)) (after m w).
Proof. unfold after, result, bind. now destruct (m w). Qed.

Lemma result_bind {A B} (m : M (World S) A) (k : A → M (World S) B) w :
  result (bind m k) w = result (k (result m w)) (after m w).
Proof. unfold after, result, bind. now destruct (m w). Qed.

Lemma preserves_ret {A} (R : relation (World S)) `{!Reflexive R} (a : A) :
  preserves R (ret a).
Proof. intros w. apply reflexivity. Qed.

Lemma preserves_bind {A B} (R : relation (World S)) `{!Transitive R}
    (m : M (World S) A) (k : A → M (World S) B) :
  preserves R m → (∀ a, preserves R (k a)) → preserves R (bind m k).
Proof.
  intros Hm Hk w. rewrite after_bind.
  etransitivity; [apply Hm|apply Hk].
Qed.

Lemma preserves_pure {A} (R : relation (World S)) `{!Reflexive R}
    (m : M (World S) A) :
  (∀ w, after m w = w) → preserves R m.
Proof. intros H w. rewrite H. apply reflexivity. Qed.

(** ** The latch *)

Lemma Error_run st w : Error st w = (latched st w, w).
Proof.
  unfold Error, latched, bind, self, ret. now destruct (error _).
Qed.

Lemma Sync_run st w : Sync st w = (latched st w, w).
Proof.
  unfold Sync, latched, bind, self, ret. now destruct (error _).
Qed.

Lemma PushError_run st err w :
  PushError st err w =
  (tt, match latched st w, AsException err with
       | None, Some ex =>
           set_manager st (with_error (managers w !!! st) (Some (traced ex))) w
       | _, _ => w
       end).
Proof.
  unfold PushError, latched, bind, self, ret, put_manager, traced.
  destruct (error _); [reflexivity|]. now destruct (AsException err).
Qed.

Lemma latched_set_manager st m w : latched st (set_manager st m w) = error m.
Proof. unfold latched. simpl. now rewrite lookup_total_insert_eq. Qed.

Lemma latched_set_manager_ne st q m w :
  q ≠ st → latched q (set_manager st m w) = latched q w.
Proof. intros. unfold latched. simpl. now rewrite lookup_total_insert_ne. Qed.

Lemma PushError_latched st err w :
  latched st (after (PushError st err) w) = latch (latched st w) err.
Proof.
  unfold after. rewrite PushError_run. simpl. unfold latch.
  destruct (latched st w) eqn:E; [exact E|].
  destruct (AsException err); simpl; [apply latched_set_manager|exact E].
Qed.

Lemma latch_code old c format a :
  latches old c (latch old (ErrorCodef c format a)).
Proof.
  unfold latches, latch. destruct old; [reflexivity|].
  simpl. eexists. split; reflexivity.
Qed.

(** [PushError] writes the latch and nothing else. *)
Lemma PushError_fields st err w :
  let w' := after (PushError st err) w in
  stub_state w' = stub_state w ∧ stub_calls w' = stub_calls w ∧
  storage_maps w' = storage_maps w ∧ account_maps w' = account_maps w ∧
  (∀ q, q ≠ st → managers w' !! q = managers w !! q) ∧
  storageCache (managers w' !!! st) = storageCache (managers w !!! st) ∧
  accountCache (managers w' !!! st) = accountCache (managers w !!! st).
Proof.
  unfold after. rewrite PushError_run. simpl.
  destruct (latched st w), (AsException err); simpl;
    repeat split; try reflexivity.
  - intros q Hq. now rewrite lookup_insert_ne.
  - now rewrite lookup_total_insert_eq.
  - now rewrite lookup_total_insert_eq.
Qed.

Lemma PushError_untouched st err w : untouched w (after (PushError st err) w).
Proof.
  destruct (PushError_fields st err w) as (_ & Hc & Hs & Ha & _).
  unfold untouched, writes. now rewrite Hc, Hs, Ha.
Qed.

Lemma PushError_caches st err q w :
  accounts_of q (after (PushError st err) w) = accounts_of q w ∧
  storage_of q (after (PushError st err) w) = storage_of q w.
Proof.
  destruct (PushError_fields st err w) as (_ & _ & Hs & Ha & Hq & Hps & Hpa).
  unfold accounts_of, storage_of. rewrite Hs, Ha.
  destruct (decide (q = st)) as [->|Hne].
  - now rewrite Hps, Hpa.
  - rewrite !lookup_total_alt, (Hq q Hne). done.
Qed.

(** ** What every call preserves

    A preorder on worlds that the writes of an adapter respect is
    preserved by every call on that adapter. *)

Section Preservation.

Variable R : relation (World S).
Context `{!PreOrder R}.
Variable st : loc.

Hypothesis R_stub : ∀ w s c, R w (set_stub s c w).
Hypothesis R_storage : ∀ w r c, R w (set_storage_map r c w).
Hypothesis R_account : ∀ w r c, R w (set_account_map r c w).
Hypothesis R_latch : ∀ w e,
  latched st w = None →
  R w (set_manager st (with_error (managers w !!! st) (Some e)) w).
Hypothesis R_new : ∀ w m, R w (set_manager (fresh (dom (managers w))) m w).

Lemma preserves_self q : preserves R (self q).
Proof. apply preserves_pure; [apply _|reflexivity]. Qed.

Lemma preserves_storage_map r : preserves R (storage_map r).
Proof. apply preserves_pure; [apply _|reflexivity]. Qed.

Lemma preserves_account_map r : preserves R (account_map r).
Proof. apply preserves_pure; [apply _|reflexivity]. Qed.

Lemma preserves_put_storage_map r c : preserves R (put_storage_map r c).
Proof. intros w. apply R_storage. Qed.

Lemma preserves_put_account_map r c : preserves R (put_account_map r c).
Proof. intros w. apply R_account. Qed.

Lemma preserves_new_manager m : preserves R (new_manager m).
Proof. intros w. apply R_new. Qed.

Lemma preserves_stub_GetState key : preserves R (stub_GetState key).
Proof.
  intros w. unfold after, stub_GetState.
  destruct (GetState _ _). apply R_stub.
Qed.

Lemma preserves_stub_PutState key value :
  preserves R (stub_PutState key value).
Proof.
  intros w. unfold after, stub_PutState.
  destruct (PutState _ _ _). apply R_stub.
Qed.

Lemma preserves_stub_DelState key : preserves R (stub_DelState key).
Proof.
  intros w. unfold after, stub_DelState.
  destruct (DelState _ _). apply R_stub.
Qed.

Lemma preserves_PushError err : preserves R (PushError st err).
Proof.
  intros w. unfold after. rewrite PushError_run. simpl.
  destruct (latched st w) eqn:E; [reflexivity|].
  destruct (AsException err); [now apply R_latch|reflexivity].
Qed.

Ltac preserve_step :=
  first
    [ apply preserves_ret; apply _
    | apply preserves_self
    | apply preserves_storage_map
    | apply preserves_account_map
    | apply preserves_put_storage_map
    | apply preserves_put_account_map
    | apply preserves_new_manager
    | apply preserves_stub_GetState
    | apply preserves_stub_PutState
    | apply preserves_stub_DelState
    | apply preserves_PushError
    | apply preserves_bind; [apply _| |intros]
    | match goal with
      | |- preserves _ (match ?x with _ => _ end) => destruct x
      end ].

Ltac preserve := repeat preserve_step.

Lemma preserves_GetAccount a : preserves R (GetAccount st a).
Proof. unfold GetAccount. preserve. Qed.

Lemma preserves_account a : preserves R (account st a).
Proof. unfold account. preserve. Qed.

Lemma preserves_mustAccount a : preserves R (mustAccount st a).
Proof. unfold mustAccount. preserve. Qed.

Lemma preserves_Exists a : preserves R (Exists st a).
Proof. unfold Exists. preserve. Qed.

Lemma preserves_updateAccount acc : preserves R (updateAccount st acc).
Proof. unfold updateAccount. preserve. Qed.

Lemma preserves_removeAccount a : preserves R (removeAccount st a).
Proof. unfold removeAccount. preserve. Qed.

Theorem run_preserves c : preserves R (run st c).
Proof.
  destruct c; simpl;
    unfold NewCache, Sync, Error, GetStorage, GetBalance, GetPermissions,
      GetCode, GetSequence, CreateAccount, InitCode, RemoveAccount,
      SetStorage, AddToBalance, SubtractFromBalance, SetPermission,
      UnsetPermission, AddRole, RemoveRole, IncSequence;
    preserve; apply preserves_updateAccount.
Qed.

End Preservation.

(** No call overwrites or clears a latched error, on any adapter. *)
#[local] Instance keeps_latches_preorder : PreOrder (@keeps_latches S).
Proof.
  split.
  - intros w q e H. exact H.
  - intros w1 w2 w3 H12 H23 q e H. apply H23, H12, H.
Qed.

Lemma latched_fresh w : latched (fresh (dom (managers w))) w = None.
Proof.
  unfold latched. rewrite lookup_total_alt.
  rewrite (not_elem_of_dom_1 (managers w)); [reflexivity|apply is_fresh].
Qed.

Lemma run_keeps_latches st c : preserves keeps_latches (run st c).
Proof.
  apply run_preserves.
  - apply _.
  - intros w s c' q e H. exact H.
  - intros w r c' q e H. exact H.
  - intros w r c' q e H. exact H.
  - intros w e Hst q e' H.
    destruct (decide (q = st)) as [->|Hne]; [congruence|].
    now rewrite latched_set_manager_ne.
  - intros w m q e H.
    destruct (decide (q = fresh (dom (managers w)))) as [->|Hne].
    + rewrite latched_fresh in H. discriminate.
    + now rewrite latched_set_manager_ne.
Qed.

Lemma run_all_keeps_latches cs : preserves keeps_latches (run_all cs).
Proof.
  induction cs as [|[st c] cs IH]; simpl.
  - apply preserves_ret, _.
  - apply preserves_bind; [apply _|apply run_keeps_latches|intros; apply IH].
Qed.

(** A call on an adapter leaves every other adapter as it was. *)
#[local] Instance frames_preorder st : PreOrder (@frames S st).
Proof.
  split.
  - intros w q m _ H. exact H.
  - intros w1 w2 w3 H12 H23 q m Hq H. apply H23, H12; assumption.
Qed.


(** ** Looking an account up *)

Lemma writes_set_stub_read (s : S) key w :
  writes (set_stub s (GetStateCall key) w) = writes w.
Proof.
  unfold writes. simpl. rewrite List.filter_app. simpl. apply app_nil_r.
Qed.

Lemma GetAccount_hit st a w val :
  accounts_of st w !! Address_String a = Some val →
  GetAccount st a w = (decode a val, w).
Proof.
  intros H. unfold GetAccount, bind, self, account_map.
  fold (accounts_of st w). rewrite H. unfold ret, decode.
  destruct (length val =? 0)%nat; [reflexivity|].
  destruct (Account_Unmarshal _ _) as [acct [e|]]; reflexivity.
Qed.

Lemma GetAccount_miss st a w val err (s : S) :
  accounts_of st w !! Address_String a = None →
  GetState (stub_state w) (Address_String a) = ((val, err), s) →
  GetAccount st a w =
  (match err with Some _ => (None, err) | None => decode a val end,
   set_stub s (GetStateCall (Address_String a)) w).
Proof.
  intros H E. unfold GetAccount, bind, self, account_map.
  fold (accounts_of st w). rewrite H. unfold stub_GetState. rewrite E.
  destruct err; [reflexivity|]. unfold ret, decode.
  destruct (length val =? 0)%nat; [reflexivity|].
  destruct (Account_Unmarshal _ _) as [acct [e|]]; reflexivity.
Qed.

Lemma GetAccount_reads_only st a w : reads_only w (after (GetAccount st a) w).
Proof.
  unfold after.
  destruct (accounts_of st w !! Address_String a) as [val|] eqn:H.
  - rewrite (GetAccount_hit _ _ _ _ H). repeat split.
  - destruct (GetState (stub_state w) (Address_String a)) as [[val err] s]
      eqn:E.
    rewrite (GetAccount_miss _ _ _ _ _ _ H E). simpl.
    repeat split. apply writes_set_stub_read.
Qed.

Lemma GetAccount_world st a w r w1 :
  GetAccount st a w = (r, w1) → reads_only w w1.
Proof.
  intros E. pose proof (GetAccount_reads_only st a w) as H.
  unfold after in H. now rewrite E in H.
Qed.

Lemma reads_only_latched w w1 q : reads_only w w1 → latched q w1 = latched q w.
Proof. intros (_ & _ & Hm & _). unfold latched. now rewrite Hm. Qed.

Lemma reads_only_accounts w w1 q :
  reads_only w w1 → accounts_of q w1 = accounts_of q w.
Proof. intros (_ & Ha & Hm & _). unfold accounts_of. now rewrite Ha, Hm. Qed.

Lemma reads_only_storage w w1 q :
  reads_only w w1 → storage_of q w1 = storage_of q w.
Proof. intros (Hs & _ & Hm & _). unfold storage_of. now rewrite Hs, Hm. Qed.

Lemma account_found st a w acc w1 :
  GetAccount st a w = ((acc, None), w1) → account st a w = (acc, w1).
Proof. intros E. unfold account. now rewrite (bind_run _ _ _ _ _ E). Qed.

Lemma mustAccount_found st a w acc w1 :
  GetAccount st a w = ((Some acc, None), w1) →
  mustAccount st a w = (Some acc, w1).
Proof.
  intros E. unfold mustAccount.
  now rewrite (bind_run _ _ _ _ _ (account_found _ _ _ _ _ E)).
Qed.

Lemma mustAccount_missing st a w w1 :
  GetAccount st a w = ((None, None), w1) →
  mustAccount st a w =
  (None,
   after (PushError st (ErrorCodef ErrorCodeIllegalWrite
            "attempted to modify non-existent account: %v" [ArgAddress a]))
         w1).
Proof.
  intros E. unfold mustAccount.
  rewrite (bind_run _ _ _ _ _ (account_found _ _ _ _ _ E)).
  unfold bind, after. now destruct (PushError _ _ _) as [[] ?].
Qed.

Lemma Exists_found st a w acc w1 :
  GetAccount st a w = ((Some acc, None), w1) → Exists st a w = (true, w1).
Proof. intros E. unfold Exists. now rewrite (bind_run _ _ _ _ _ E). Qed.

Lemma Exists_missing st a w w1 :
  GetAccount st a w = ((None, None), w1) → Exists st a w = (false, w1).
Proof. intros E. unfold Exists. now rewrite (bind_run _ _ _ _ _ E). Qed.

(** ** Writing an account *)

Lemma updateAccount_run st acc w bs err (s : S) :
  Account_Marshal acc = (bs, None) →
  PutState (stub_state w) (Address_String (Address_ acc)) bs = (err, s) →
  updateAccount st acc w =
  match err with Some _ => PushError st err | None => ret tt end
    (set_stub s (PutStateCall (Address_String (Address_ acc)) bs)
       (set_account_map (accountCache (managers w !!! st))
          (<[Address_String (Address_ acc) := bs]> (accounts_of st w)) w)).
Proof.
  intros HM E. unfold updateAccount. rewrite HM.
  unfold bind, self, account_map, put_account_map, stub_PutState.
  simpl. rewrite E. reflexivity.
Qed.

Lemma updateAccount_spec st acc w bs :
  Account_Marshal acc = (bs, None) →
  let key := Address_String (Address_ acc) in
  let w' := after (updateAccount st acc) w in
  accounts_of st w' = <[key := bs]> (accounts_of st w) ∧
  stub_calls w' = stub_calls w ++ [PutStateCall key bs] ∧
  storage_maps w' = storage_maps w ∧
  latched st w' = latch (latched st w) (fst (PutState (stub_state w) key bs)).
Proof.
  intros HM key w'. subst w'. unfold after.
  destruct (PutState (stub_state w) key bs) as [err s] eqn:E. simpl fst.
  rewrite (updateAccount_run _ _ _ _ _ _ HM E). fold key.
  set (w2 := set_stub s _ _).
  assert (H2 : accounts_of st w2 = <[key := bs]> (accounts_of st w) ∧
               stub_calls w2 = stub_calls w ++ [PutStateCall key bs] ∧
               storage_maps w2 = storage_maps w ∧
               latched st w2 = latched st w).
  { unfold w2, accounts_of, latched. simpl.
    now rewrite lookup_total_insert_eq. }
  destruct H2 as (Ha & Hc & Hs & Hl). clearbody w2.
  destruct err as [e|].
  - fold (after (PushError st (Some e)) w2).
    destruct (PushError_fields st (Some e) w2) as (_ & Hc' & Hs' & _).
    destruct (PushError_caches st (Some e) st w2) as (Ha' & _).
    rewrite Ha', Hc', Hs', PushError_latched, Ha, Hc, Hs, Hl. done.
  - simpl. rewrite Ha, Hc, Hs, Hl. unfold latch.
    now destruct (latched st w).
Qed.

Lemma writes_app w w' c :
  stub_calls w' = stub_calls w ++ [c] → is_write c = true →
  writes w' = writes w ++ [c].
Proof.
  intros E Hc. unfold writes. rewrite E, List.filter_app. simpl.
  now rewrite Hc.
Qed.

Lemma reads_only_untouched w w1 w' :
  reads_only w w1 → untouched w1 w' → untouched w w'.
Proof.
  intros (Hs & Ha & _ & Hw) (Hs' & Ha' & Hw'). unfold untouched.
  now rewrite Hs', Ha', Hw', Hs, Ha, Hw.
Qed.

Lemma wrap64_small z : is_uint64 z → wrap64 z = z.
Proof.
  unfold is_uint64, wrap64, MaxUint64. intros H.
  apply Z.mod_small. lia.
Qed.

(** A push on the adapter after a successful lookup. *)
Lemma lookup_then_push st a w r w1 err :
  GetAccount st a w = (r, w1) →
  let w' := after (PushError st err) w1 in
  latched st w' = latch (latched st w) err ∧ untouched w w' ∧
  accounts_of st w' = accounts_of st w ∧ storage_of st w' = storage_of st w.
Proof.
  intros HG w'. pose proof (GetAccount_world _ _ _ _ _ HG) as Hr.
  destruct (PushError_caches st err st w1) as (Ha & Hs).
  repeat split.
  - unfold w'. now rewrite PushError_latched, (reads_only_latched _ _ _ Hr).
  - apply (reads_only_untouched _ _ _ Hr), PushError_untouched.
  - apply (reads_only_untouched _ _ _ Hr), PushError_untouched.
  - apply (reads_only_untouched _ _ _ Hr), PushError_untouched.
  - unfold w'. now rewrite Ha, (reads_only_accounts _ _ _ Hr).
  - unfold w'. now rewrite Hs, (reads_only_storage _ _ _ Hr).
Qed.

(** An update of the account after a successful lookup. *)
Lemma lookup_then_update st a w r w1 acc bs :
  GetAccount st a w = (r, w1) →
  Account_Marshal acc = (bs, None) →
  let key := Address_String (Address_ acc) in
  let w' := after (updateAccount st acc) w1 in
  accounts_of st w' = <[key := bs]> (accounts_of st w) ∧
  stub_calls w' = stub_calls w1 ++ [PutStateCall key bs] ∧
  writes w' = writes w ++ [PutStateCall key bs] ∧
  storage_maps w' = storage_maps w ∧
  latched st w' = latch (latched st w) (fst (PutState (stub_state w1) key bs)).
Proof.
  intros HG HM key w'. pose proof (GetAccount_world _ _ _ _ _ HG) as Hr.
  destruct (updateAccount_spec st acc w1 bs HM) as (Ha & Hc & Hs & Hl).
  fold key w' in Ha, Hc, Hs, Hl.
  rewrite Ha, Hs, Hl, (reads_only_accounts _ _ _ Hr),
    (reads_only_latched _ _ _ Hr).
  repeat split; try assumption.
  - rewrite (writes_app _ _ _ Hc eq_refl). now destruct Hr as (_ & _ & _ & ->).
  - now destruct Hr as (-> & _).
Qed.

(** A read of the balance after an update. *)
Lemma GetBalance_cached st a w bs acc :
  accounts_of st w !! Address_String a = Some bs →
  decode a bs = (Some acc, None) →
  result (GetBalance st a) w = Balance acc.
Proof.
  intros H HD. unfold result, GetBalance.
  assert (HG : GetAccount st a w = ((Some acc, None), w)).
  { now rewrite (GetAccount_hit _ _ _ _ H), HD. }
  now rewrite (bind_run _ _ _ _ _ (account_found _ _ _ _ _ HG)).
Qed.

(** ** Balances *)

(** C4. [AddToBalance] on an existing account: when balance + amount
    overflows a uint64 the integer-overflow error is pushed on the latch,
    no map is changed and no write is made on the store; otherwise the
    account with balance + amount is serialized into the account cache
    and written to the store, and the balance reads back as the sum. *)
Theorem C4_AddToBalance st A amount acc w w1 :
  GetAccount st A w = ((Some acc, None), w1) →
  is_uint64 (Balance acc) → is_uint64 amount →
  IsUint64SumOverflow_correct →
  let w' := after (AddToBalance st A amount) w in
  let key := Address_String (Address_ acc) in
  (MaxUint64 < Balance acc + amount →
     latches (latched st w) ErrorCodeIntegerOverflow (latched st w') ∧
     untouched w w' ∧ accounts_of st w' = accounts_of st w) ∧
  (Balance acc + amount ≤ MaxUint64 →
     ∀ bs,
       Account_Marshal (with_Balance acc (Balance acc + amount)) = (bs, None) →
       accounts_of st w' = <[key := bs]> (accounts_of st w) ∧
       writes w' = writes w ++ [PutStateCall key bs] ∧
       storage_maps w' = storage_maps w ∧
       latched st w' =
         latch (latched st w) (fst (PutState (stub_state w1) key bs)) ∧
       (Address_ acc = A →
        decode A bs = (Some (with_Balance acc (Balance acc + amount)), None) →
        result (GetBalance st A) w' = Balance acc + amount)).
Proof.
  intros HG Hb Ha Hov w' key. subst w'. unfold after, AddToBalance.
  rewrite (bind_run _ _ _ _ _ (mustAccount_found _ _ _ _ _ HG)).
  specialize (Hov _ _ Hb Ha). split.
  - intros Hlt. apply Hov in Hlt. rewrite Hlt.
    destruct (lookup_then_push st A w _ w1
                (ErrorCodef ErrorCodeIntegerOverflow
                   "uint64 overflow: attempt to add %v to the balance of %s"
                   [ArgUint64 amount; ArgAddress A]) HG) as (Hl & Hu & Hc & _).
    unfold after in Hl, Hu, Hc. rewrite Hl. split; [apply latch_code|].
    split; assumption.
  - intros Hle bs HM.
    destruct (IsUint64SumOverflow (Balance acc) amount) eqn:E.
    { pose proof (proj1 Hov eq_refl). lia. }
    rewrite wrap64_small by (unfold is_uint64 in *; lia).
    destruct (lookup_then_update st A w _ w1 _ bs HG HM)
      as (Hc & _ & Hw & Hs & Hl).
    unfold after in Hc, Hw, Hs, Hl. simpl in Hc, Hw, Hl. fold key in Hc, Hw, Hl.
    repeat split; try assumption.
    intros HA HD.
    assert (Hk : accounts_of st
                   (updateAccount st
                      (with_Balance acc (Balance acc + amount)) w1).2
                 !! Address_String A = Some bs).
    { rewrite Hc. subst key. rewrite HA. apply lookup_insert_eq. }
    now rewrite (GetBalance_cached st A _ bs _ Hk HD).
Qed.

(** C5. [SubtractFromBalance] on an existing account: when the amount
    exceeds the balance the insufficient-balance error is pushed on the
    latch, no map is changed and no write is made on the store; otherwise
    the account with balance - amount is serialized into the account cache
    and written to the store, and the balance reads back as the
    difference. *)
Theorem C5_SubtractFromBalance st A amount acc w w1 :
  GetAccount st A w = ((Some acc, None), w1) →
  is_uint64 (Balance acc) → is_uint64 amount →
  let w' := after (SubtractFromBalance st A amount) w in
  let key := Address_String (Address_ acc) in
  (Balance acc < amount →
     latches (latched st w) ErrorCodeInsufficientBalance (latched st w') ∧
     untouched w w' ∧ accounts_of st w' = accounts_of st w) ∧
  (amount ≤ Balance acc →
     ∀ bs,
       Account_Marshal (with_Balance acc (Balance acc - amount)) = (bs, None) →
       accounts_of st w' = <[key := bs]> (accounts_of st w) ∧
       writes w' = writes w ++ [PutStateCall key bs] ∧
       storage_maps w' = storage_maps w ∧
       latched st w' =
         latch (latched st w) (fst (PutState (stub_state w1) key bs)) ∧
       (Address_ acc = A →
        decode A bs = (Some (with_Balance acc (Balance acc - amount)), None) →
        result (GetBalance st A) w' = Balance acc - amount)).
Proof.
  intros HG Hb Ha w' key. subst w'. unfold after, SubtractFromBalance.
  rewrite (bind_run _ _ _ _ _ (mustAccount_found _ _ _ _ _ HG)).
  split.
  - intros Hlt. apply Z.ltb_lt in Hlt. rewrite Hlt.
    destruct (lookup_then_push st A w _ w1
                (ErrorCodef ErrorCodeInsufficientBalance
                   "insufficient funds: attempt to subtract %v from the balance of %s"
                   [ArgUint64 amount; ArgAddress (Address_ acc)]) HG)
      as (Hl & Hu & Hc & _).
    unfold after in Hl, Hu, Hc. rewrite Hl. split; [apply latch_code|].
    split; assumption.
  - intros Hle bs HM.
    destruct (Balance acc <? amount) eqn:E.
    { apply Z.ltb_lt in E. lia. }
    rewrite wrap64_small by (unfold is_uint64 in *; lia).
    destruct (lookup_then_update st A w _ w1 _ bs HG HM)
      as (Hc & _ & Hw & Hs & Hl).
    unfold after in Hc, Hw, Hs, Hl. simpl in Hc, Hw, Hl. fold key in Hc, Hw, Hl.
    repeat split; try assumption.
    intros HA HD.
    assert (Hk : accounts_of st
                   (updateAccount st
                      (with_Balance acc (Balance acc - amount)) w1).2
                 !! Address_String A = Some bs).
    { rewrite Hc. subst key. rewrite HA. apply lookup_insert_eq. }
    now rewrite (GetBalance_cached st A _ bs _ Hk HD).
Qed.

(** ** The life of an account *)

(** C8. [CreateAccount] at an address where an account exists pushes the
    duplicate-address error on the latch, changes no map and makes no
    write on the store; where none exists, the account with zero balance,
    empty code, zero sequence and the permissions Call | Send (set and
    granted, no role) is serialized into the account cache and written to
    the store. *)
Theorem C8_CreateAccount st A w :
  let w' := after (CreateAccount st A) w in
  let key := Address_String A in
  (∀ acc w1,
     GetAccount st A w = ((Some acc, None), w1) →
     latches (latched st w) ErrorCodeDuplicateAddress (latched st w') ∧
     untouched w w' ∧ accounts_of st w' = accounts_of st w) ∧
  (∀ w1 bs,
     GetAccount st A w = ((None, None), w1) →
     Account_Marshal
       (mkAccount A [] 0 0 []
          (mkAccountPermissions
             (mkBasePermissions (Z.lor permission_Call permission_Send)
                                (Z.lor permission_Call permission_Send))
             [])) = (bs, None) →
     accounts_of st w' = <[key := bs]> (accounts_of st w) ∧
     writes w' = writes w ++ [PutStateCall key bs] ∧
     storage_maps w' = storage_maps w ∧
     latched st w' =
       latch (latched st w) (fst (PutState (stub_state w1) key bs))).
Proof.
  intros w' key. subst w'. unfold after, CreateAccount. split.
  - intros acc w1 HG.
    rewrite (bind_run _ _ _ _ _ (Exists_found _ _ _ _ _ HG)).
    destruct (GetAccount st A w1) as [[acc2 err2] w2] eqn:HG2.
    rewrite (bind_run _ _ _ _ _ HG2).
    pose proof (GetAccount_world _ _ _ _ _ HG) as Hr.
    destruct (lookup_then_push st A w1 _ w2
                (ErrorCodef ErrorCodeDuplicateAddress
                   "tried to create an account at an address that already exists: %v %v"
                   [ArgAddress A; ArgAccount acc2]) HG2) as (Hl & Hu & Hc & _).
    unfold after in Hl, Hu, Hc.
    rewrite Hl, Hc, (reads_only_latched _ _ _ Hr),
      (reads_only_accounts _ _ _ Hr).
    split; [apply latch_code|]. split; [|reflexivity].
    apply (reads_only_untouched _ _ _ Hr Hu).
  - intros w1 bs HG HM.
    rewrite (bind_run _ _ _ _ _ (Exists_missing _ _ _ _ HG)).
    destruct (lookup_then_update st A w _ w1 _ bs HG HM)
      as (Hc & _ & Hw & Hs & Hl).
    repeat split; assumption.
Qed.

Lemma GetAccount_cached st a w bs acc :
  accounts_of st w !! Address_String a = Some bs →
  decode a bs = (Some acc, None) →
  GetAccount st a w = ((Some acc, None), w).
Proof. intros H HD. now rewrite (GetAccount_hit _ _ _ _ H), HD. Qed.

(** C7. Code is written once.  [InitCode] with a non-empty code on an
    account whose code is empty serializes the account with that code into
    the account cache and writes it to the store, and pushes no error of
    its own; a second [InitCode] pushes the illegal-write error on the
    latch, changes no map, makes no write on the store, and the code still
    reads as the first one. *)
Theorem C7_InitCode_write_once st A C C2 acc w w1 bs :
  GetAccount st A w = ((Some acc, None), w1) →
  Address_ acc = A → Code_ acc = [] → C ≠ [] →
  Account_Marshal (with_Code acc C) = (bs, None) →
  decode A bs = (Some (with_Code acc C), None) →
  let key := Address_String A in
  let w' := after (InitCode st A C) w in
  let w'' := after (InitCode st A C2) w' in
  (accounts_of st w' = <[key := bs]> (accounts_of st w) ∧
   writes w' = writes w ++ [PutStateCall key bs] ∧
   latched st w' =
     latch (latched st w) (fst (PutState (stub_state w1) key bs))) ∧
  (latches (latched st w') ErrorCodeIllegalWrite (latched st w'') ∧
   untouched w' w'' ∧ accounts_of st w'' = accounts_of st w' ∧
   result (GetCode st A) w'' = C) ∧
  (latched st w = None → fst (PutState (stub_state w1) key bs) = None →
   latched st w' = None ∧
   ∃ ex, latched st w'' = Some ex ∧ ExceptionCode ex = ErrorCodeIllegalWrite).
Proof.
  intros HG HA HC HC1 HM HD key w' w''.
  assert (H1 : accounts_of st w' = <[key := bs]> (accounts_of st w) ∧
               writes w' = writes w ++ [PutStateCall key bs] ∧
               latched st w' =
                 latch (latched st w) (fst (PutState (stub_state w1) key bs))).
  { subst w'. unfold after, InitCode.
    rewrite (bind_run _ _ _ _ _ (mustAccount_found _ _ _ _ _ HG)).
    rewrite HC. simpl.
    destruct (lookup_then_update st A w _ w1 _ bs HG HM)
      as (Hc & _ & Hw & _ & Hl).
    simpl in Hc, Hw, Hl. rewrite HA in Hc, Hw, Hl.
    repeat split; assumption. }
  destruct H1 as (Hc1 & Hw1 & Hl1).
  assert (Hk : accounts_of st w' !! key = Some bs).
  { rewrite Hc1. apply lookup_insert_eq. }
  pose proof (GetAccount_cached _ _ _ _ _ Hk HD) as HG'.
  assert (H2 : latched st w'' =
                 latch (latched st w')
                   (ErrorCodef ErrorCodeIllegalWrite
                      "tried to initialise code for a contract that already exists: %v existing code %v"
                      [ArgAddress A; ArgBytes C]) ∧
               untouched w' w'' ∧ accounts_of st w'' = accounts_of st w').
  { subst w''. clearbody w'. unfold after, InitCode.
    rewrite (bind_run _ _ _ _ _ (mustAccount_found _ _ _ _ _ HG')).
    simpl Code_. destruct C as [|c0 C]; [done|]. simpl.
    destruct (lookup_then_push st A w' _ w' (ErrorCodef ErrorCodeIllegalWrite
                "tried to initialise code for a contract that already exists: %v existing code %v"
                [ArgAddress A; ArgBytes (c0 :: C)]) HG') as (Hl & Hu & Hc & _).
    repeat split; try assumption; apply Hu. }
  destruct H2 as (Hl2 & Hu2 & Hc2).
  split; [repeat split; assumption|]. split.
  - split; [rewrite Hl2; apply latch_code|]. split; [assumption|].
    split; [assumption|].
    assert (Hk' : accounts_of st w'' !! key = Some bs) by now rewrite Hc2.
    pose proof (GetAccount_cached _ _ _ _ _ Hk' HD) as HG''.
    unfold result, GetCode.
    now rewrite (bind_run _ _ _ _ _ (account_found _ _ _ _ _ HG'')).
  - intros Hn Hp. rewrite Hl2, Hl1, Hn, Hp. simpl. split; [reflexivity|].
    eexists. split; reflexivity.
Qed.

(** C9. At an address that is not in the account cache and that the store
    reads as absent, [Exists] is false, [GetBalance] and [GetSequence] are
    0 and [GetCode] is empty, and none of the four calls changes the latch
    of the adapter. *)
Theorem C9_absent_account st A w val (s : S) :
  accounts_of st w !! Address_String A = None →
  GetState (stub_state w) (Address_String A) = ((val, None), s) →
  length val = 0%nat →
  (result (Exists st A) w = false ∧
   latched st (after (Exists st A) w) = latched st w) ∧
  (result (GetBalance st A) w = 0 ∧
   latched st (after (GetBalance st A) w) = latched st w) ∧
  (result (GetCode st A) w = [] ∧
   latched st (after (GetCode st A) w) = latched st w) ∧
  (result (GetSequence st A) w = 0 ∧
   latched st (after (GetSequence st A) w) = latched st w).
Proof.
  intros Hc HS Hlen.
  pose proof (GetAccount_miss _ _ _ _ _ _ Hc HS) as HG.
  unfold decode in HG. rewrite Hlen in HG. simpl in HG.
  pose proof (reads_only_latched _ _ st (GetAccount_world _ _ _ _ _ HG)) as Hl.
  unfold result, after, GetBalance, GetCode, GetSequence.
  rewrite (Exists_missing _ _ _ _ HG).
  rewrite !(bind_run _ _ _ _ _ (account_found _ _ _ _ _ HG)).
  simpl. repeat split; assumption.
Qed.

(** ** Storage slots *)

Lemma GetStorage_hit st a k w val :
  storage_of st w !! compKey a k = Some val → GetStorage st a k w = (val, w).
Proof.
  intros H. unfold GetStorage, bind, self, storage_map.
  fold (storage_of st w). now rewrite H.
Qed.

Lemma GetStorage_miss st a k w val (s : S) :
  storage_of st w !! compKey a k = None →
  GetState (stub_state w) (compKey a k) = ((val, None), s) →
  GetStorage st a k w =
  (LeftPadWord256 val, set_stub s (GetStateCall (compKey a k)) w).
Proof.
  intros H E. unfold GetStorage, bind, self, storage_map.
  fold (storage_of st w). rewrite H. unfold stub_GetState. now rewrite E.
Qed.

Lemma GetStorage_miss_world st a k w :
  storage_of st w !! compKey a k = None →
  let w1 := after (GetStorage st a k) w in
  stub_calls w1 = stub_calls w ++ [GetStateCall (compKey a k)] ∧
  storage_maps w1 = storage_maps w ∧ account_maps w1 = account_maps w ∧
  storage_of st w1 = storage_of st w.
Proof.
  intros H w1. subst w1. unfold after, GetStorage, bind, self, storage_map.
  fold (storage_of st w). rewrite H. unfold stub_GetState.
  destruct (GetState _ _) as [[val [e|]] s]; [|now simpl].
  set (w2 := set_stub s _ w).
  fold (bind (PushError st (Some e)) (λ _, ret Zero256) w2).
  fold (after (bind (PushError st (Some e)) (λ _, ret Zero256)) w2).
  rewrite after_bind. unfold ret at 1 2 3 4, after at 1 3 5 7. simpl snd.
  destruct (PushError_fields st (Some e) w2) as (_ & Hc & Hs & Ha & _).
  destruct (PushError_caches st (Some e) st w2) as (_ & Hso).
  rewrite Hc, Hs, Ha, Hso. now simpl.
Qed.

Lemma SetStorage_run st a k v w err (s : S) :
  PutState (stub_state w) (compKey a k) (Word256_Bytes v) = (err, s) →
  let w2 := set_stub s (PutStateCall (compKey a k) (Word256_Bytes v)) w in
  SetStorage st a k v w =
  match err with
  | Some _ => PushError st err w2
  | None =>
      (tt, set_storage_map (storageCache (managers w !!! st))
             (<[compKey a k := v]> (storage_of st w)) w2)
  end.
Proof.
  intros E w2. unfold SetStorage, bind at 1, stub_PutState. rewrite E.
  destruct err; [reflexivity|].
  unfold bind, self, storage_map, put_storage_map, ret. reflexivity.
Qed.

Lemma SetStorage_ok st a k v w :
  store_accepts a k v w →
  let w' := after (SetStorage st a k v) w in
  storage_of st w' = <[compKey a k := v]> (storage_of st w) ∧
  stub_calls w' =
    stub_calls w ++ [PutStateCall (compKey a k) (Word256_Bytes v)] ∧
  managers w' = managers w ∧ account_maps w' = account_maps w.
Proof.
  intros H w'. unfold store_accepts in H. subst w'. unfold after.
  destruct (PutState _ _ _) as [err s] eqn:E. simpl in H. subst err.
  rewrite (SetStorage_run _ _ _ _ _ _ _ E). unfold storage_of. simpl.
  now rewrite lookup_total_insert_eq.
Qed.

(** C6. When the store accepts the two writes, [GetStorage] after
    [SetStorage] of the same slot returns the value written, and makes no
    call on the store (the world is unchanged); after a second
    [SetStorage] it returns the second value, again without a call. *)
Theorem C6_storage_read_after_write st A K V1 V2 w :
  let w1 := after (SetStorage st A K V1) w in
  let w2 := after (SetStorage st A K V2) (after (GetStorage st A K) w1) in
  store_accepts A K V1 w → store_accepts A K V2 w1 →
  GetStorage st A K w1 = (V1, w1) ∧ GetStorage st A K w2 = (V2, w2).
Proof.
  intros w1 w2 Hok1 Hok2.
  destruct (SetStorage_ok st A K V1 w Hok1) as (H1 & _).
  fold w1 in H1.
  assert (HG1 : GetStorage st A K w1 = (V1, w1)).
  { apply GetStorage_hit. rewrite H1. apply lookup_insert_eq. }
  split; [exact HG1|].
  apply GetStorage_hit.
  assert (E : after (GetStorage st A K) w1 = w1).
  { unfold after at 1. now rewrite HG1. }
  subst w2. rewrite E.
  destruct (SetStorage_ok st A K V2 w1 Hok2) as (H2 & _).
  rewrite H2. apply lookup_insert_eq.
Qed.

(** C2 (amended). A read that misses the cache is answered from the
    store and is not stored in a cache: [GetStorage] returns the value of
    the store padded to 32 bytes, when the store holds at most 32 bytes
    (on more the padding of Burrow panics), [GetAccount] the account
    decoded from the bytes of the store; both leave the two caches as they
    were, and the same read again calls the store again. *)
Theorem C2_read_through_without_caching st A K w :
  (storage_of st w !! compKey A K = None →
   let w1 := after (GetStorage st A K) w in
   let w2 := after (GetStorage st A K) w1 in
   (∀ val s, GetState (stub_state w) (compKey A K) = ((val, None), s) →
             (length val ≤ 32)%nat →
             result (GetStorage st A K) w = LeftPadWord256 val) ∧
   storage_maps w1 = storage_maps w ∧ account_maps w1 = account_maps w ∧
   stub_calls w1 = stub_calls w ++ [GetStateCall (compKey A K)] ∧
   stub_calls w2 = stub_calls w ++ [GetStateCall (compKey A K);
                                    GetStateCall (compKey A K)]) ∧
  (accounts_of st w !! Address_String A = None →
   let w1 := after (GetAccount st A) w in
   let w2 := after (GetAccount st A) w1 in
   (∀ val s, GetState (stub_state w) (Address_String A) = ((val, None), s) →
             result (GetAccount st A) w = decode A val) ∧
   storage_maps w1 = storage_maps w ∧ account_maps w1 = account_maps w ∧
   stub_calls w1 = stub_calls w ++ [GetStateCall (Address_String A)] ∧
   stub_calls w2 = stub_calls w ++ [GetStateCall (Address_String A);
                                    GetStateCall (Address_String A)]).
Proof.
  split.
  - intros H w1 w2.
    destruct (GetStorage_miss_world st A K w H) as (Hc & Hs & Ha & Hso).
    fold w1 in Hc, Hs, Ha, Hso.
    assert (H1 : storage_of st w1 !! compKey A K = None) by now rewrite Hso.
    destruct (GetStorage_miss_world st A K w1 H1) as (Hc2 & _).
    fold w2 in Hc2. repeat split; try assumption.
    + intros val s E _. unfold result.
      now rewrite (GetStorage_miss _ _ _ _ _ _ H E).
    + rewrite Hc2, Hc, <- app_assoc. reflexivity.
  - intros H w1 w2.
    assert (Hmiss : ∀ w0, accounts_of st w0 !! Address_String A = None →
              stub_calls (after (GetAccount st A) w0)
                = stub_calls w0 ++ [GetStateCall (Address_String A)]).
    { intros w0 H0. unfold after.
      destruct (GetState (stub_state w0) (Address_String A))
        as [[val err] s] eqn:E.
      now rewrite (GetAccount_miss _ _ _ _ _ _ H0 E). }
    pose proof (GetAccount_reads_only st A w) as Hr. fold w1 in Hr.
    assert (H1 : accounts_of st w1 !! Address_String A = None)
      by now rewrite (reads_only_accounts _ _ _ Hr).
    destruct Hr as (Hs & Ha & _).
    repeat split; try assumption.
    + intros val s E. unfold result.
      now rewrite (GetAccount_miss _ _ _ _ _ _ H E).
    + apply Hmiss, H.
    + unfold w2. rewrite (Hmiss _ H1). unfold w1.
      rewrite (Hmiss _ H), <- app_assoc. reflexivity.
Qed.

(** ** No operation looks at the latch

    The latch is read by [Sync], [Error] and [PushError] alone.  Two worlds
    that are the same but for the latch of an adapter stay so across every
    other operation on it, which returns the same result in both. *)

Section Independence.

Variable st : loc.

Lemma same_but_latch_fields w w0 :
  same_but_latch st w w0 ↔
  stub_state w = stub_state w0 ∧ stub_calls w = stub_calls w0 ∧
  storage_maps w = storage_maps w0 ∧ account_maps w = account_maps w0 ∧
  <[st := with_error (managers w !!! st) None]> (managers w)
    = <[st := with_error (managers w0 !!! st) None]> (managers w0).
Proof.
  unfold same_but_latch, forget_latch, set_manager. split.
  - intros H. injection H as -> -> -> -> ->. done.
  - intros (-> & -> & -> & -> & ->). reflexivity.
Qed.

Lemma same_but_latch_self w w0 :
  same_but_latch st w w0 →
  with_error (managers w !!! st) None = with_error (managers w0 !!! st) None.
Proof.
  intros H. apply same_but_latch_fields in H as (_ & _ & _ & _ & H).
  apply (f_equal (λ ms, ms !!! st)) in H.
  now rewrite !lookup_total_insert_eq in H.
Qed.

Lemma ignores_ret {A} (a : A) : ignores_latch (S:=S) st (ret a).
Proof. intros w w0 H. split; [reflexivity|exact H]. Qed.

Lemma ignores_bind {A B} (m : M (World S) A) (k : A → M (World S) B) :
  ignores_latch (S:=S) st m → (∀ a, ignores_latch (S:=S) st (k a)) →
  ignores_latch (S:=S) st (bind m k).
Proof.
  intros Hm Hk w w0 H. rewrite !result_bind, !after_bind.
  destruct (Hm w w0 H) as (-> & H'). apply Hk, H'.
Qed.

(** The adapter is read for its two cache fields only. *)
Lemma ignores_self {B} (k : stateManager → M (World S) B) :
  (∀ m, ignores_latch (S:=S) st (k m)) → (∀ m e, k (with_error m e) = k m) →
  ignores_latch (S:=S) st (bind (self st) k).
Proof.
  intros Hk Hind w w0 H.
  assert (E : ∀ w1, bind (self st) k w1
                    = k (with_error (managers w1 !!! st) None) w1).
  { intros w1. rewrite Hind. reflexivity. }
  unfold result, after. rewrite !E, (same_but_latch_self w w0 H).
  apply Hk, H.
Qed.

Lemma ignores_storage_map r : ignores_latch (S:=S) st (storage_map r).
Proof.
  intros w w0 H. split; [|exact H].
  apply same_but_latch_fields in H as (_ & _ & E & _).
  unfold result, storage_map. simpl. now rewrite E.
Qed.

Lemma ignores_account_map r : ignores_latch (S:=S) st (account_map r).
Proof.
  intros w w0 H. split; [|exact H].
  apply same_but_latch_fields in H as (_ & _ & _ & E & _).
  unfold result, account_map. simpl. now rewrite E.
Qed.

Lemma ignores_put_storage_map r c :
  ignores_latch (S:=S) st (put_storage_map r c).
Proof.
  intros w w0 H. split; [reflexivity|].
  apply same_but_latch_fields in H as (E1 & E2 & E3 & E4 & E5).
  apply same_but_latch_fields. unfold after, put_storage_map. simpl.
  now rewrite E1, E2, E3, E4, E5.
Qed.

Lemma ignores_put_account_map r c :
  ignores_latch (S:=S) st (put_account_map r c).
Proof.
  intros w w0 H. split; [reflexivity|].
  apply same_but_latch_fields in H as (E1 & E2 & E3 & E4 & E5).
  apply same_but_latch_fields. unfold after, put_account_map. simpl.
  now rewrite E1, E2, E3, E4, E5.
Qed.

Lemma same_but_latch_set_stub s c w w0 :
  same_but_latch st w w0 →
  same_but_latch st (set_stub s c w) (set_stub s c w0).
Proof.
  intros H. apply same_but_latch_fields in H as (E1 & E2 & E3 & E4 & E5).
  apply same_but_latch_fields. simpl. now rewrite E2, E3, E4, E5.
Qed.

Lemma ignores_stub_GetState key :
  ignores_latch (S:=S) st (stub_GetState key).
Proof.
  intros w w0 H. unfold result, after, stub_GetState.
  rewrite <- (proj1 (proj1 (same_but_latch_fields w w0) H)).
  destruct (GetState _ _). simpl.
  split; [reflexivity|now apply same_but_latch_set_stub].
Qed.

Lemma ignores_stub_PutState key value :
  ignores_latch (S:=S) st (stub_PutState key value).
Proof.
  intros w w0 H. unfold result, after, stub_PutState.
  rewrite <- (proj1 (proj1 (same_but_latch_fields w w0) H)).
  destruct (PutState _ _ _). simpl.
  split; [reflexivity|now apply same_but_latch_set_stub].
Qed.

Lemma ignores_stub_DelState key :
  ignores_latch (S:=S) st (stub_DelState key).
Proof.
  intros w w0 H. unfold result, after, stub_DelState.
  rewrite <- (proj1 (proj1 (same_but_latch_fields w w0) H)).
  destruct (DelState _ _). simpl.
  split; [reflexivity|now apply same_but_latch_set_stub].
Qed.

(** [PushError] writes the latch and nothing else, whatever the latch. *)
Lemma forget_latch_PushError err w :
  forget_latch st (after (PushError st err) w) = forget_latch st w.
Proof.
  unfold after. rewrite PushError_run. simpl.
  destruct (latched st w), (AsException err); try reflexivity.
  unfold forget_latch, set_manager. simpl.
  now rewrite lookup_total_insert_eq, insert_insert_eq.
Qed.

Lemma forget_latch_twin w :
  latched st (forget_latch st w) = None ∧
  same_but_latch st w (forget_latch st w).
Proof.
  split; [apply latched_set_manager|].
  unfold same_but_latch, forget_latch at 2 3, set_manager. simpl.
  now rewrite lookup_total_insert_eq, insert_insert_eq.
Qed.

Lemma ignores_PushError err : ignores_latch (S:=S) st (PushError st err).
Proof.
  intros w w0 H. split.
  - unfold result. now rewrite !PushError_run.
  - unfold same_but_latch. now rewrite !forget_latch_PushError.
Qed.

Ltac ignore_step :=
  first
    [ apply ignores_ret
    | apply ignores_storage_map
    | apply ignores_account_map
    | apply ignores_put_storage_map
    | apply ignores_put_account_map
    | apply ignores_stub_GetState
    | apply ignores_stub_PutState
    | apply ignores_stub_DelState
    | apply ignores_PushError
    | apply ignores_self; [intros|intros; reflexivity]
    | apply ignores_bind; [|intros]
    | match goal with
      | |- ignores_latch _ (match ?x with _ => _ end) => destruct x
      end ].

Ltac ignore := repeat ignore_step.

Lemma ignores_GetStorage a k :
  ignores_latch (S:=S) st (GetStorage st a k).
Proof. unfold GetStorage. ignore. Qed.

Lemma ignores_GetAccount a : ignores_latch (S:=S) st (GetAccount st a).
Proof. unfold GetAccount. ignore. Qed.

Lemma ignores_updateAccount acc :
  ignores_latch (S:=S) st (updateAccount st acc).
Proof. unfold updateAccount. ignore. Qed.

Lemma ignores_removeAccount a :
  ignores_latch (S:=S) st (removeAccount st a).
Proof. unfold removeAccount. ignore. Qed.

(** Every operation but [NewCache], [Sync] and [Error], which return the
    adapter or its latch, does the same whatever the latch. *)
Lemma run_ignores_latch c :
  match c with
  | CallNewCache _ | CallSync | CallError => False
  | _ => True
  end → ignores_latch (S:=S) st (run st c).
Proof.
  destruct c; simpl; intros H; try destruct H;
    unfold GetStorage, GetBalance, GetPermissions, GetCode, GetSequence,
      CreateAccount, InitCode, RemoveAccount, SetStorage, AddToBalance,
      SubtractFromBalance, SetPermission, UnsetPermission, AddRole,
      RemoveRole, IncSequence, Exists, mustAccount, account;
    ignore;
    first [apply ignores_GetAccount | apply ignores_updateAccount
          | apply ignores_removeAccount].
Qed.

End Independence.

(** ** The latch over a run *)

(** C1 (amended). A latched error is never overwritten or cleared: after
    any sequence of calls, on any adapters, [Error] still returns it (the
    calls that hand a [*Exception] to [PushError] aside: the source
    rewrites the text of that exception in place, for all who hold it).
    The mutating operations are not stopped by the latch: every one of
    them does to the store, to the log of the calls made on it, to the two
    caches and to the other adapters what it does from the same world with
    another latch, as the one with the latch emptied; so [SetStorage] on
    an adapter with a latched error still writes to the store and, when
    the store accepts the write, to the storage cache. *)
Theorem C1_latched_error_is_kept st e w :
  latched st w = Some e →
  (∀ cs, Forall (λ qc, hands_over (snd qc) = false) cs →
         result (Error st) (after (run_all cs) w) = Some e) ∧
  (∀ c w0, is_mutator c = true → same_but_latch st w w0 →
           same_but_latch st (after (run st c) w) (after (run st c) w0)) ∧
  (latched st (forget_latch st w) = None ∧
   ∀ c, is_mutator c = true →
        same_but_latch st (after (run st c) w)
                          (after (run st c) (forget_latch st w))) ∧
  (∀ A K V,
     store_accepts A K V w →
     let w' := after (SetStorage st A K V) w in
     storage_of st w' !! compKey A K = Some V ∧
     writes w' = writes w ++ [PutStateCall (compKey A K) (Word256_Bytes V)] ∧
     latched st w' = Some e).
Proof.
  assert (HI : ∀ c w0, is_mutator c = true → same_but_latch st w w0 →
            same_but_latch st (after (run st c) w) (after (run st c) w0)).
  { intros c w0 Hc Hw. apply run_ignores_latch; [|exact Hw]. now destruct c. }
  intros H. split; [|split; [exact HI|split]].
  - intros cs _. unfold result. rewrite Error_run. simpl.
    apply (run_all_keeps_latches cs w), H.
  - destruct (forget_latch_twin st w) as (Hl & Ht).
    split; [exact Hl|]. intros c Hc. apply HI; assumption.
  - intros A K V HP w'.
    destruct (SetStorage_ok st A K V w HP) as (Hs & Hc & Hm & _).
    fold w' in Hs, Hc, Hm. split; [|split].
    + rewrite Hs. apply lookup_insert_eq.
    + apply (writes_app _ _ _ Hc eq_refl).
    + unfold latched. now rewrite Hm.
Qed.

(** ** Views *)

#[local] Instance keeps_pointers_preorder : PreOrder (@keeps_pointers S).
Proof.
  split.
  - intros w q m H. exists m. done.
  - intros w1 w2 w3 H12 H23 q m H.
    destruct (H12 q m H) as (m2 & H2 & Hs2 & Ha2).
    destruct (H23 q m2 H2) as (m3 & H3 & Hs3 & Ha3).
    exists m3. split; [exact H3|]. split; congruence.
Qed.




Lemma apply_options_fields m o :
  storageCache (apply_options m o) = storageCache m ∧
  accountCache (apply_options m o) = accountCache m ∧
  error (apply_options m o) = error m.
Proof.
  revert m. induction o as [|x o IH]; intros m; [done|].
  unfold apply_options in *. simpl.
  destruct (IH (match x with ReadOnly => with_readonly m true | _ => m end))
    as (-> & -> & ->).
  now destruct x.
Qed.

Lemma NewCache_run st o w :
  NewCache st o w =
  (fresh (dom (managers w)),
   set_manager (fresh (dom (managers w)))
     (apply_options
        (mkStateManager (storageCache (managers w !!! st))
                        (accountCache (managers w !!! st)) None false) o) w).
Proof. reflexivity. Qed.



(** [InitCode] at an address without account: the error of [mustAccount]
    is pushed first, so the one of [InitCode] never reaches the latch. *)
Lemma InitCode_missing_account st A code w w1 :
  GetAccount st A w = ((None, None), w1) →
  let w' := after (InitCode st A code) w in
  latches (latched st w) ErrorCodeIllegalWrite (latched st w') ∧
  untouched w w'.
Proof.
  intros HG w'. subst w'. unfold after, InitCode.
  rewrite (bind_run _ _ _ _ _ (mustAccount_missing _ _ _ _ HG)).
  pose proof (GetAccount_world _ _ _ _ _ HG) as Hr.
  set (e1 := ErrorCodef ErrorCodeIllegalWrite _ _).
  set (e2 := ErrorCodef ErrorCodeInvalidAddress _ _).
  fold (after (PushError st e2) (after (PushError st e1) w1)). split.
  - rewrite !PushError_latched, (reads_only_latched _ _ _ Hr).
    unfold latches, latch. destruct (latched st w); [reflexivity|].
    simpl. eexists. split; reflexivity.
  - apply (reads_only_untouched _ _ _ Hr).
    destruct (PushError_untouched st e1 w1) as (Hs1 & Ha1 & Hw1).
    destruct (PushError_untouched st e2 (after (PushError st e1) w1))
      as (Hs2 & Ha2 & Hw2).
    unfold untouched. now rewrite Hs2, Ha2, Hw2.
Qed.

End Properties.

(** ** The test suite

    The cases of [statemanager_test.go], evaluated on the model. *)

Import Fixture.

Example test_GetAccount :
  result (GetAccount sm addr)
         (started (ledger_of (mkAccount addr [] 0 0 some_code
                                (mkAccountPermissions
                                   (mkBasePermissions 6 6) []))))
    = (Some (mkAccount addr [] 0 0 some_code
               (mkAccountPermissions (mkBasePermissions 6 6) [])), None) ∧
  result (GetAccount sm addr) (started ∅) = (None, None) ∧
  result (GetAccount sm addr) (started_on failing_get) = (None, boom).
Proof. vm_compute. repeat split. Qed.

Example test_GetStorage :
  GetStorage sm addr slot_key (started slot_ledger)
    = (initialVal,
       set_stub (mock slot_ledger) (GetStateCall (compKey addr slot_key))
                (started slot_ledger)) ∧
  (let w := after (GetStorage sm addr slot_key) (started_on failing_get) in
   result (GetStorage sm addr slot_key) (started_on failing_get) = Zero256 ∧
   ExceptionCode <$> result (Error sm) w = Some ErrorCodeGeneric) ∧
  (let w := after (GetStorage sm addr slot_key ;;
                   SetStorage sm addr slot_key updatedVal)
                  (started slot_ledger) in
   result (GetStorage sm addr slot_key) w = updatedVal ∧
   result (Error sm) w = None).
Proof. vm_compute. repeat split. Qed.

(** An error without text from the store, as errors.New of the empty
    string: [AsException] answers nil and nothing is latched; so for a
    coded error without text and for a nil [*Exception]. *)
Example an_error_without_text_is_not_latched :
  let silent :=
    mkMockStub ∅ ∅ (Some ([], Some (PlainErr EmptyString))) None None in
  let w := after (GetStorage sm addr slot_key) (started_on silent) in
  result (GetStorage sm addr slot_key) (started_on silent) = Zero256 ∧
  stub_calls w = [GetStateCall (compKey addr slot_key)] ∧
  result (Error sm) w = None ∧
  result (Error sm)
    (after (PushError sm (Some (CodedErr ErrorCodeIllegalWrite EmptyString)))
           (started ∅)) = None ∧
  result (Error sm)
    (after (PushError sm (Some (ExceptionPtr None))) (started ∅)) = None ∧
  ExceptionCode <$> result (Error sm) (after (PushError sm boom) (started ∅))
    = Some ErrorCodeGeneric.
Proof. vm_compute. repeat split. Qed.

Example test_GetBalance_Exists_GetCode :
  result (GetBalance sm addr) (started ∅) = 0 ∧
  result (GetBalance sm addr) (funded 10002123123) = 10002123123 ∧
  result (Error sm) (after (GetBalance sm addr) (funded 10002123123)) = None ∧
  result (Exists sm addr) (started ∅) = false ∧
  result (Exists sm addr) (funded 0) = true ∧
  result (GetCode sm addr) (started ∅) = [] ∧
  result (GetCode sm addr) (started (ledger_of (an_account 0 some_code)))
    = some_code.
Proof. vm_compute. repeat split. Qed.

Example test_CreateAccount :
  (let w := after (CreateAccount sm addr) (started ∅) in
   result (Error sm) w = None ∧ PutStateCallCount w = 1%nat ∧
   result (Exists sm addr) w = true) ∧
  (let w := after (CreateAccount sm addr)
                  (started (ledger_of (an_account 0 some_code))) in
   PutStateCallCount w = 0%nat ∧
   ExceptionCode <$> result (Error sm) w = Some ErrorCodeDuplicateAddress) ∧
  (let w := after (CreateAccount sm addr) (started_on (failing_put ∅)) in
   ExceptionCode <$> result (Error sm) w = Some ErrorCodeGeneric).
Proof. vm_compute. repeat split. Qed.

Example test_InitCode :
  (let w := after (CreateAccount sm addr ;; InitCode sm addr some_code)
                  (started ∅) in
   result (Error sm) w = None ∧ PutStateCallCount w = 2%nat ∧
   result (GetCode sm addr) w = some_code) ∧
  result (Error sm) (after (InitCode sm addr some_code) (funded 0)) = None ∧
  ExceptionCode <$>
    result (Error sm)
           (after (InitCode sm addr some_code)
                  (started (ledger_of (an_account 0 some_code))))
    = Some ErrorCodeIllegalWrite.
Proof. vm_compute. repeat split. Qed.

Example test_RemoveAccount :
  (let w := after (RemoveAccount sm addr) (funded 0) in
   result (Error sm) w = None ∧ DelStateCallCount w = 1%nat) ∧
  (let w := after (RemoveAccount sm addr) (started ∅) in
   ExceptionCode <$> result (Error sm) w = Some ErrorCodeDuplicateAddress ∧
   DelStateCallCount w = 0%nat) ∧
  (let w := after (RemoveAccount sm addr)
                  (started_on (failing_del (ledger_of (an_account 0 [])))) in
   ExceptionCode <$> result (Error sm) w = Some ErrorCodeGeneric).
Proof. vm_compute. repeat split. Qed.

Example test_SetStorage :
  (let w := after (SetStorage sm addr slot_key initialVal) (started ∅) in
   result (Error sm) w = None ∧
   stub_calls w
     = [PutStateCall (compKey addr slot_key) (Word256_Bytes initialVal)]) ∧
  (let w := after (SetStorage sm addr slot_key initialVal)
                  (started_on (failing_put ∅)) in
   ExceptionCode <$> result (Error sm) w = Some ErrorCodeGeneric ∧
   storage_of sm w !! compKey addr slot_key = None).
Proof. vm_compute. repeat split. Qed.

Example test_AddToBalance :
  (let w := after (CreateAccount sm addr ;; AddToBalance sm addr 102345 ;;
                   AddToBalance sm addr 102) (started ∅) in
   PutStateCallCount w = 3%nat ∧
   result (GetBalance sm addr) w = 102345 + 102) ∧
  (let w := after (AddToBalance sm addr 102345 ;; AddToBalance sm addr 102)
                  (funded 123) in
   PutStateCallCount w = 2%nat ∧
   result (GetBalance sm addr) w = 123 + 102345 + 102).
Proof. vm_compute. repeat split. Qed.

Example test_SubtractFromBalance :
  (let w := after (CreateAccount sm addr ;; SubtractFromBalance sm addr 102345 ;;
                   SubtractFromBalance sm addr 102) (started ∅) in
   ExceptionCode <$> result (Error sm) w = Some ErrorCodeInsufficientBalance ∧
   PutStateCallCount w = 1%nat ∧ result (GetBalance sm addr) w = 0) ∧
  (let w := after (SubtractFromBalance sm addr 10 ;;
                   SubtractFromBalance sm addr 102) (funded 123) in
   result (Error sm) w = None ∧ PutStateCallCount w = 2%nat ∧
   result (GetBalance sm addr) w = 123 - 10 - 102).
Proof. vm_compute. repeat split. Qed.

(** Balance 123: subtracting 1 succeeds with one write; subtracting 200
    then latches the insufficient-balance error, the balance is still 122
    and no other write is made. *)
Example scenario_SubtractFromBalance :
  let w1 := after (SubtractFromBalance sm addr 1) (funded 123) in
  let w2 := after (SubtractFromBalance sm addr 200) w1 in
  result (Error sm) w1 = None ∧ result (GetBalance sm addr) w1 = 122 ∧
  PutStateCallCount w1 = 1%nat ∧
  ExceptionCode <$> result (Error sm) w2 = Some ErrorCodeInsufficientBalance ∧
  result (GetBalance sm addr) w2 = 122 ∧ PutStateCallCount w2 = 1%nat.
Proof. vm_compute. repeat split. Qed.

(** ** The theorems on the test fixture *)

Lemma C4_AddToBalance_witness :
  result (GetBalance sm addr) (after (AddToBalance sm addr 102345) (funded 123))
    = 123 + 102345 ∧
  untouched (funded MaxUint64)
            (after (AddToBalance sm addr 1) (funded MaxUint64)).
Proof.
  assert (Hc : IsUint64SumOverflow_correct).
  { intros a b Ha Hb. simpl. rewrite Z.ltb_lt. lia. }
  split.
  - refine (proj2 (proj2 (proj2 (proj2
      (proj2 (C4_AddToBalance sm addr 102345 (an_account 123 []) (funded 123)
                (after (GetAccount sm addr) (funded 123)) _ _ _ Hc) _
         (fst (marshal (an_account (123 + 102345) []))) _)))) _ _).
    + vm_compute. reflexivity.
    + vm_compute. split; discriminate.
    + vm_compute. split; discriminate.
    + vm_compute. discriminate.
    + reflexivity.
    + reflexivity.
    + vm_compute. reflexivity.
  - refine (proj1 (proj2
      (proj1 (C4_AddToBalance sm addr 1 (an_account MaxUint64 [])
                (funded MaxUint64)
                (after (GetAccount sm addr) (funded MaxUint64)) _ _ _ Hc) _))).
    + vm_compute. reflexivity.
    + vm_compute. split; discriminate.
    + vm_compute. split; discriminate.
    + vm_compute. reflexivity.
Defined.

Lemma C5_SubtractFromBalance_witness :
  result (GetBalance sm addr) (after (SubtractFromBalance sm addr 1) (funded 123))
    = 123 - 1 ∧
  untouched (funded 122) (after (SubtractFromBalance sm addr 200) (funded 122)).
Proof.
  split.
  - refine (proj2 (proj2 (proj2 (proj2
      (proj2 (C5_SubtractFromBalance sm addr 1 (an_account 123 []) (funded 123)
                (after (GetAccount sm addr) (funded 123)) _ _ _) _
         (fst (marshal (an_account (123 - 1) []))) _)))) _ _).
    + vm_compute. reflexivity.
    + vm_compute. split; discriminate.
    + vm_compute. split; discriminate.
    + vm_compute. discriminate.
    + reflexivity.
    + reflexivity.
    + vm_compute. reflexivity.
  - refine (proj1 (proj2
      (proj1 (C5_SubtractFromBalance sm addr 200 (an_account 122 [])
                (funded 122)
                (after (GetAccount sm addr) (funded 122)) _ _ _) _))).
    + vm_compute. reflexivity.
    + vm_compute. split; discriminate.
    + vm_compute. split; discriminate.
    + vm_compute. reflexivity.
Defined.

(** C3 (the code at the failing input). On a fresh adapter over an empty
    ledger, [InitCode] at an address without account latches the
    illegal-write error of [mustAccount], not the invalid-address error. *)
Theorem C3_InitCode_missing_account_latches_IllegalWrite :
  let w := started ∅ in
  let w' := after (InitCode sm addr some_code) w in
  result (Error sm) w = None ∧
  result (GetAccount sm addr) w = (None, None) ∧
  ExceptionCode <$> result (Error sm) w' = Some ErrorCodeIllegalWrite ∧
  ExceptionCode <$> result (Error sm) w' ≠ Some ErrorCodeInvalidAddress ∧
  untouched w w'.
Proof. vm_compute. repeat split; discriminate. Qed.

Lemma C1_counterexample :
  is_mutator (CallAddToBalance addr 1) = true ∧
  is_Some (result (Error sm) overdrawn) ∧
  ¬ silent_noop sm (CallAddToBalance addr 1) overdrawn.
Proof.
  split; [reflexivity|]. split.
  - vm_compute. eauto.
  - intros (_ & _ & _ & H). vm_compute in H. discriminate.
Qed.

Lemma C1_latched_error_is_kept_witness :
  latched sm overdrawn = Some overdrawn_error ∧
  result (Error sm)
    (after (run_all [(sm, CallAddToBalance addr 1);
                     (sm, CallInitCode addr some_code);
                     (sm, CallPushError boom)])
           overdrawn)
    = Some overdrawn_error ∧
  latched sm solvent = None ∧ same_but_latch sm overdrawn solvent ∧
  same_but_latch sm (after (run sm (CallIncSequence addr)) overdrawn)
                    (after (run sm (CallIncSequence addr)) solvent) ∧
  same_but_latch sm (after (run sm (CallRemoveAccount addr)) overdrawn)
                    (after (run sm (CallRemoveAccount addr)) solvent) ∧
  writes (after (run sm (CallRemoveAccount addr)) overdrawn)
    = [DelStateCall (Address_String addr)] ∧
  storage_of sm (after (SetStorage sm addr slot_key initialVal) overdrawn)
    !! compKey addr slot_key = Some initialVal.
Proof.
  assert (E : latched sm overdrawn = Some overdrawn_error).
  { vm_compute. reflexivity. }
  assert (T : same_but_latch sm overdrawn solvent).
  { vm_compute. reflexivity. }
  destruct (C1_latched_error_is_kept sm overdrawn_error overdrawn E)
    as (H1 & H2 & _ & H3).
  split; [exact E|]. split; [apply H1; repeat constructor|].
  split; [vm_compute; reflexivity|]. split; [exact T|].
  split; [apply H2; [reflexivity|exact T]|].
  split; [apply H2; [reflexivity|exact T]|].
  split; [vm_compute; reflexivity|].
  apply (H3 addr slot_key initialVal). vm_compute. reflexivity.
Defined.

Lemma C2_counterexample :
  ¬ storage_read_is_cached sm addr slot_key (started slot_ledger).
Proof.
  intros H. destruct H as [H _]; [vm_compute; reflexivity|].
  vm_compute in H. discriminate.
Qed.

Lemma C2_read_through_without_caching_witness :
  let w := started slot_ledger in
  result (GetStorage sm addr slot_key) w = initialVal ∧
  stub_calls (after (GetStorage sm addr slot_key)
                (after (GetStorage sm addr slot_key) w))
    = [GetStateCall (compKey addr slot_key);
       GetStateCall (compKey addr slot_key)] ∧
  stub_calls (after (GetAccount sm addr)
                (after (GetAccount sm addr) (funded 123)))
    = [GetStateCall (Address_String addr); GetStateCall (Address_String addr)].
Proof.
  intros w.
  destruct (proj1 (C2_read_through_without_caching sm addr slot_key w))
    as (Hr & _ & _ & _ & Hc).
  - vm_compute. reflexivity.
  - split; [|split].
    + apply (Hr (Word256_Bytes initialVal) (mock slot_ledger));
        [vm_compute; reflexivity|vm_compute; lia].
    + exact Hc.
    + destruct (proj2 (C2_read_through_without_caching sm addr slot_key
                         (funded 123))) as (_ & _ & _ & _ & Ha).
      * vm_compute. reflexivity.
      * exact Ha.
Defined.

Lemma C6_storage_read_after_write_witness :
  let w1 := after (SetStorage sm addr slot_key initialVal) (started ∅) in
  let w2 := after (SetStorage sm addr slot_key updatedVal)
                  (after (GetStorage sm addr slot_key) w1) in
  GetStorage sm addr slot_key w1 = (initialVal, w1) ∧
  GetStorage sm addr slot_key w2 = (updatedVal, w2).
Proof.
  apply (C6_storage_read_after_write sm addr slot_key initialVal updatedVal
           (started ∅)); vm_compute; reflexivity.
Defined.

Lemma C7_InitCode_write_once_witness :
  let w' := after (InitCode sm addr some_code) (funded 123) in
  let w'' := after (InitCode sm addr [Byte.x01]) w' in
  latched sm w' = None ∧
  (∃ ex, latched sm w'' = Some ex ∧ ExceptionCode ex = ErrorCodeIllegalWrite) ∧
  result (GetCode sm addr) w'' = some_code.
Proof.
  intros w' w''.
  destruct (C7_InitCode_write_once sm addr some_code [Byte.x01]
              (an_account 123 []) (funded 123)
              (after (GetAccount sm addr) (funded 123))
              (fst (marshal (an_account 123 some_code))))
    as (_ & (_ & _ & _ & HC) & HL).
  - vm_compute. reflexivity.
  - reflexivity.
  - reflexivity.
  - discriminate.
  - reflexivity.
  - vm_compute. reflexivity.
  - destruct HL as (H1 & H2); [vm_compute; reflexivity ..|].
    split; [exact H1|]. split; [exact H2|exact HC].
Defined.

Lemma C8_CreateAccount_witness :
  untouched (funded 123) (after (CreateAccount sm addr) (funded 123)) ∧
  writes (after (CreateAccount sm addr) (started ∅))
    = [PutStateCall (Address_String addr)
         (fst (marshal (mkAccount addr [] 0 0 []
                 (mkAccountPermissions (mkBasePermissions 6 6) []))))].
Proof.
  split.
  - refine (proj1 (proj2
      (proj1 (C8_CreateAccount sm addr (funded 123)) (an_account 123 [])
             (after (GetAccount sm addr) (funded 123)) _))).
    vm_compute. reflexivity.
  - destruct (proj2 (C8_CreateAccount sm addr (started ∅))
                (after (GetAccount sm addr) (started ∅))
                (fst (marshal (mkAccount addr [] 0 0 []
                        (mkAccountPermissions (mkBasePermissions 6 6) [])))))
      as (_ & Hw & _).
    + vm_compute. reflexivity.
    + reflexivity.
    + exact Hw.
Defined.

Lemma C9_absent_account_witness :
  let w := started ∅ in
  result (Exists sm addr) w = false ∧ result (GetBalance sm addr) w = 0 ∧
  result (GetCode sm addr) w = [] ∧ result (GetSequence sm addr) w = 0 ∧
  latched sm (after (GetBalance sm addr) w) = None.
Proof.
  intros w.
  destruct (C9_absent_account sm addr w [] (mock ∅))
    as ((HE & _) & (HB & HL) & (HC & _) & (HS & _)).
  - vm_compute. reflexivity.
  - vm_compute. reflexivity.
  - reflexivity.
  - split; [exact HE|]. split; [exact HB|]. split; [exact HC|].
    split; [exact HS|]. rewrite HL. vm_compute. reflexivity.
Defined.


(** * Further properties of the package *)

(** ** The footprint of a call

    [effects c] lists what the call [c] may do to the world; a preorder on
    worlds that holds across each of these effects holds across the
    call. *)

Section Footprint.

Context `{Lib : Library} {S : Type} `{Stub : !ChaincodeStubInterface S}.

Implicit Types (w : World S) (st q : loc).

Variable R : relation (World S).
Context `{!PreOrder R}.
Variable st : loc.
Variable may : effect → Prop.
Hypothesis may_respects : ∀ e, may e → respects R st e.

Lemma footprint_self q : preserves R (self q).
Proof. apply preserves_pure; [apply _|reflexivity]. Qed.

Lemma footprint_storage_map r : preserves R (storage_map r).
Proof. apply preserves_pure; [apply _|reflexivity]. Qed.

Lemma footprint_account_map r : preserves R (account_map r).
Proof. apply preserves_pure; [apply _|reflexivity]. Qed.

Lemma footprint_put_storage_map r c :
  may WritesStorageCache → preserves R (put_storage_map r c).
Proof. intros H w. apply (may_respects _ H). Qed.

Lemma footprint_put_account_map r c :
  may WritesAccountCache → preserves R (put_account_map r c).
Proof. intros H w. apply (may_respects _ H). Qed.

Lemma footprint_new_manager m : may Allocates → preserves R (new_manager m).
Proof. intros H w. apply (may_respects _ H). Qed.

Lemma footprint_stub_GetState key :
  may ReadsStore → preserves R (stub_GetState key).
Proof.
  intros H w. unfold after, stub_GetState.
  destruct (GetState _ _). apply (may_respects _ H).
Qed.

Lemma footprint_stub_PutState key value :
  may PutsStore → preserves R (stub_PutState key value).
Proof.
  intros H w. unfold after, stub_PutState.
  destruct (PutState _ _ _). apply (may_respects _ H).
Qed.

Lemma footprint_stub_DelState key :
  may DeletesStore → preserves R (stub_DelState key).
Proof.
  intros H w. unfold after, stub_DelState.
  destruct (DelState _ _). apply (may_respects _ H).
Qed.

Lemma footprint_PushError err : may WritesLatch → preserves R (PushError st err).
Proof.
  intros H w. unfold after. rewrite PushError_run. simpl.
  destruct (latched st w) eqn:E; [reflexivity|].
  destruct (AsException err); [now apply (may_respects _ H)|reflexivity].
Qed.

Ltac footprint_step H :=
  first
    [ apply preserves_ret; apply _
    | apply footprint_self
    | apply footprint_storage_map
    | apply footprint_account_map
    | apply footprint_put_storage_map; apply H; simpl; tauto
    | apply footprint_put_account_map; apply H; simpl; tauto
    | apply footprint_new_manager; apply H; simpl; tauto
    | apply footprint_stub_GetState; apply H; simpl; tauto
    | apply footprint_stub_PutState; apply H; simpl; tauto
    | apply footprint_stub_DelState; apply H; simpl; tauto
    | apply footprint_PushError; apply H; simpl; tauto
    | apply preserves_bind; [apply _| |intros]
    | match goal with
      | |- preserves _ (match ?x with _ => _ end) => destruct x
      end ].

Ltac footprint H := repeat footprint_step H.

Lemma footprint_updateAccount acc :
  may PutsStore → may WritesAccountCache → may WritesLatch →
  preserves R (updateAccount st acc).
Proof.
  intros H1 H2 H3.
  assert (H : ∀ e, List.In e [PutsStore; WritesAccountCache; WritesLatch] →
                   may e).
  { intros e [<-|[<-|[<-|[]]]]; assumption. }
  unfold updateAccount. footprint H.
Qed.

Lemma run_footprint c :
  (∀ e, List.In e (effects c) → may e) → preserves R (run st c).
Proof.
  intros H.
  destruct c; simpl in H; simpl run;
    unfold NewCache, Sync, Error, GetStorage, GetBalance, GetPermissions,
      GetCode, GetSequence, CreateAccount, InitCode, RemoveAccount,
      SetStorage, AddToBalance, SubtractFromBalance, SetPermission,
      UnsetPermission, AddRole, RemoveRole, IncSequence;
    footprint H;
    apply footprint_updateAccount; apply H; simpl; tauto.
Qed.

End Footprint.

Section Further.

Context `{Lib : Library} {S : Type} `{Stub : !ChaincodeStubInterface S}.

Implicit Types (w : World S) (st q : loc).

#[local] Instance untouched_preorder : PreOrder (@untouched S).
Proof.
  split.
  - intros w. repeat split.
  - intros w1 w2 w3 (Hs & Ha & Hw) (Hs' & Ha' & Hw'). unfold untouched.
    now rewrite Hs', Ha', Hw', Hs, Ha, Hw.
Qed.

#[local] Instance same_storage_preorder : PreOrder (@same_storage S).
Proof.
  split; [intros w; reflexivity|].
  intros w1 w2 w3 H H'. unfold same_storage in *. congruence.
Qed.

#[local] Instance same_accounts_preorder : PreOrder (@same_accounts S).
Proof.
  split; [intros w; reflexivity|].
  intros w1 w2 w3 H H'. unfold same_accounts in *. congruence.
Qed.

(** ** What the calls never do *)

Lemma run_untouched st c w :
  (∀ e, List.In e (effects c) →
        e = ReadsStore ∨ e = WritesLatch ∨ e = Allocates) →
  untouched w (after (run st c) w).
Proof.
  intros Hc.
  apply (run_footprint untouched st
           (λ e, e = ReadsStore ∨ e = WritesLatch ∨ e = Allocates)).
  - intros e [-> | [-> | ->]]; simpl.
    + intros w0 s key. repeat split. apply writes_set_stub_read.
    + intros w0 e _. repeat split.
    + intros w0 m. repeat split.
  - exact Hc.
Qed.

(** X1. A call that is not a mutating operation (a read, [Sync], [Error],
    [PushError], [NewCache]) changes no storage map and no account map and
    makes no write on the store. *)
Theorem non_mutators_never_write st c w :
  is_mutator c = false → untouched w (after (run st c) w).
Proof.
  intros Hc. apply run_untouched.
  destruct c; try discriminate Hc; simpl; intuition (subst; auto).
Qed.

(** X2. The two caches are separate: only [SetStorage] changes a storage map,
    and [SetStorage] and the calls that are not mutating operations change
    no account map. *)
Theorem caches_are_separate st c w :
  let w' := after (run st c) w in
  ((∀ a k v, c ≠ CallSetStorage a k v) → storage_maps w' = storage_maps w) ∧
  (is_mutator c = false ∨ (∃ a k v, c = CallSetStorage a k v) →
   account_maps w' = account_maps w).
Proof.
  intros w'. split.
  - intros Hc.
    apply (run_footprint same_storage st (λ e, e ≠ WritesStorageCache)).
    + intros e He. destruct e; simpl; try done; intros; reflexivity.
    + destruct c; simpl; try (intuition (subst; discriminate)).
      exfalso. eapply Hc. reflexivity.
  - intros Hc.
    apply (run_footprint same_accounts st (λ e, e ≠ WritesAccountCache)).
    + intros e He. destruct e; simpl; try done; intros; reflexivity.
    + destruct Hc as [Hc|(a & k & v & ->)].
      * destruct c; try discriminate Hc; simpl;
          intuition (subst; discriminate).
      * simpl. intuition (subst; discriminate).
Qed.

(** ** Lookups, once more *)

Lemma account_cached st a w bs acc :
  accounts_of st w !! Address_String a = Some bs →
  decode a bs = (Some acc, None) →
  account st a w = (Some acc, w).
Proof.
  intros H HD. apply account_found. now rewrite (GetAccount_hit _ _ _ _ H), HD.
Qed.

Lemma GetAccount_miss_calls st a w :
  accounts_of st w !! Address_String a = None →
  stub_calls (after (GetAccount st a) w)
    = stub_calls w ++ [GetStateCall (Address_String a)].
Proof.
  intros H. unfold after.
  destruct (GetState (stub_state w) (Address_String a)) as [[val err] s] eqn:E.
  now rewrite (GetAccount_miss _ _ _ _ _ _ H E).
Qed.

Lemma after_then_ret {A} (m : M (World S) A) w :
  after (m ;; ret tt) w = after m w.
Proof. now rewrite after_bind. Qed.

(** A mutating operation of the form "fetch with [mustAccount], then
    [updateAccount]" on an existing account. *)
Lemma found_then_update st A w acc w1 acc' bs
    (k : option Account → M (World S) unit) :
  GetAccount st A w = ((Some acc, None), w1) →
  k (Some acc) = updateAccount st acc' →
  Account_Marshal acc' = (bs, None) →
  let key := Address_String (Address_ acc') in
  let w' := after (bind (mustAccount st A) k) w in
  accounts_of st w' = <[key := bs]> (accounts_of st w) ∧
  writes w' = writes w ++ [PutStateCall key bs] ∧
  storage_maps w' = storage_maps w ∧
  latched st w' = latch (latched st w) (fst (PutState (stub_state w1) key bs)).
Proof.
  intros HG Hk HM key w'. subst w'. unfold after.
  rewrite (bind_run _ _ _ _ _ (mustAccount_found _ _ _ _ _ HG)), Hk.
  destruct (lookup_then_update st A w _ w1 _ bs HG HM)
    as (Hc & _ & Hw & Hs & Hl).
  repeat split; assumption.
Qed.

(** ** Operations on an account that does not exist *)

(** X3. Every operation that fetches its account with [mustAccount]
    ([InitCode], [AddToBalance], [SubtractFromBalance], [SetPermission],
    [UnsetPermission], [AddRole], [RemoveRole], [IncSequence]), called at
    an address without account, pushes the illegal-write error on the
    latch, changes no map and makes no write on the store; [AddRole] and
    [RemoveRole] return false. *)
Theorem mutators_need_the_account st c A w w1 :
  mustAccount_of c = Some A →
  GetAccount st A w = ((None, None), w1) →
  let w' := after (run st c) w in
  latches (latched st w) ErrorCodeIllegalWrite (latched st w') ∧
  untouched w w' ∧
  (∀ role, result (AddRole st A role) w = false ∧
           result (RemoveRole st A role) w = false).
Proof.
  intros Hc HG w'.
  pose proof (mustAccount_missing _ _ _ _ HG) as HM.
  destruct (lookup_then_push st A w _ w1
              (ErrorCodef ErrorCodeIllegalWrite
                 "attempted to modify non-existent account: %v" [ArgAddress A])
              HG) as (Hl & Hu & _).
  assert (Hpush : latches (latched st w) ErrorCodeIllegalWrite
                    (latched st
                       (after (PushError st
                          (ErrorCodef ErrorCodeIllegalWrite
                             "attempted to modify non-existent account: %v"
                             [ArgAddress A])) w1))).
  { rewrite Hl. apply latch_code. }
  split; [|split].
  - subst w'. destruct c; try discriminate Hc; simpl in Hc;
      injection Hc as ->; simpl run;
      try rewrite after_then_ret;
      try (unfold after at 1, AddToBalance, SubtractFromBalance, SetPermission,
             UnsetPermission, AddRole, RemoveRole, IncSequence;
           rewrite (bind_run _ _ _ _ _ HM); exact Hpush).
    apply (InitCode_missing_account _ _ _ _ _ HG).
  - subst w'. destruct c; try discriminate Hc; simpl in Hc;
      injection Hc as ->; simpl run;
      try rewrite after_then_ret;
      try (unfold after at 1, AddToBalance, SubtractFromBalance, SetPermission,
             UnsetPermission, AddRole, RemoveRole, IncSequence;
           rewrite (bind_run _ _ _ _ _ HM); exact Hu).
    apply (InitCode_missing_account _ _ _ _ _ HG).
  - intros role. unfold result, AddRole, RemoveRole.
    now rewrite !(bind_run _ _ _ _ _ HM).
Qed.

(** ** Removing an account *)

Lemma removeAccount_run st a w err (s : S) :
  DelState (stub_state w) (Address_String a) = (err, s) →
  removeAccount st a w =
  (err,
   set_stub s (DelStateCall (Address_String a))
     match accounts_of st w !! Address_String a with
     | Some _ =>
         set_account_map (accountCache (managers w !!! st))
           (delete (Address_String a) (accounts_of st w)) w
     | None => w
     end).
Proof.
  intros E. unfold removeAccount, bind at 1, self. unfold bind at 1, account_map.
  fold (accounts_of st w).
  destruct (accounts_of st w !! Address_String a);
    unfold bind, put_account_map, ret, stub_DelState; simpl; now rewrite E.
Qed.

(** X4. [RemoveAccount] at an address where an account exists deletes the
    entry of the address from the account cache (it leaves no mark that
    the account was removed), makes one [DelState] call on the store, and
    pushes the error of the store, if any; the next lookup of the address
    goes to the store again. *)
Theorem RemoveAccount_existing st A acc w w1 :
  GetAccount st A w = ((Some acc, None), w1) →
  let key := Address_String A in
  let w' := after (RemoveAccount st A) w in
  accounts_of st w' = delete key (accounts_of st w) ∧
  writes w' = writes w ++ [DelStateCall key] ∧
  storage_maps w' = storage_maps w ∧
  latched st w' = latch (latched st w) (fst (DelState (stub_state w1) key)) ∧
  stub_calls (after (GetAccount st A) w') = stub_calls w' ++ [GetStateCall key].
Proof.
  intros HG key w'.
  pose proof (GetAccount_world _ _ _ _ _ HG) as Hr.
  assert (H : accounts_of st w' = delete key (accounts_of st w) ∧
              writes w' = writes w ++ [DelStateCall key] ∧
              storage_maps w' = storage_maps w ∧
              latched st w' =
                latch (latched st w) (fst (DelState (stub_state w1) key))).
  { subst w'. unfold after, RemoveAccount.
    rewrite (bind_run _ _ _ _ _ (Exists_found _ _ _ _ _ HG)). cbn [negb].
    cbv iota.
    destruct (DelState (stub_state w1) key) as [err s] eqn:E.
    rewrite (bind_run _ _ _ _ _ (removeAccount_run _ _ _ _ _ E)). simpl fst.
    fold key. set (w2 := set_stub s _ _).
    assert (H2 : accounts_of st w2 = delete key (accounts_of st w) ∧
                 writes w2 = writes w ++ [DelStateCall key] ∧
                 storage_maps w2 = storage_maps w ∧
                 latched st w2 = latched st w).
    { rewrite <- (reads_only_accounts _ _ st Hr),
        <- (reads_only_latched _ _ st Hr).
      destruct Hr as (Hs & _ & _ & Hw). rewrite <- Hs, <- Hw.
      unfold w2. destruct (accounts_of st w1 !! key) eqn:Hk.
      - unfold accounts_of, latched, writes. simpl.
        rewrite lookup_total_insert_eq, List.filter_app. done.
      - rewrite (delete_id _ _ Hk).
        unfold accounts_of, latched, writes. simpl.
        rewrite List.filter_app. done. }
    destruct H2 as (Ha & Hw & Hs & Hl). clearbody w2.
    destruct err as [e|].
    - fold (after (PushError st (Some e)) w2).
      destruct (PushError_untouched st (Some e) w2) as (Hs' & _ & Hw').
      destruct (PushError_caches st (Some e) st w2) as (Ha' & _).
      rewrite Ha', Hw', Hs', PushError_latched, Ha, Hw, Hs, Hl. done.
    - simpl. rewrite Ha, Hw, Hs, Hl. unfold latch.
      now destruct (latched st w). }
  destruct H as (Ha & Hw & Hs & Hl).
  repeat split; try assumption.
  apply GetAccount_miss_calls. rewrite Ha. apply lookup_delete_eq.
Qed.

(** X5. [RemoveAccount] at an address without account pushes the
    duplicate-address error on the latch (the code of [CreateAccount] on
    an existing account), changes no map and makes no call to delete on
    the store. *)
Theorem RemoveAccount_missing st A w w1 :
  GetAccount st A w = ((None, None), w1) →
  let w' := after (RemoveAccount st A) w in
  latches (latched st w) ErrorCodeDuplicateAddress (latched st w') ∧
  untouched w w'.
Proof.
  intros HG w'. subst w'. unfold after, RemoveAccount.
  rewrite (bind_run _ _ _ _ _ (Exists_missing _ _ _ _ HG)). cbn [negb].
  cbv iota.
  destruct (lookup_then_push st A w _ w1
              (ErrorCodef ErrorCodeDuplicateAddress
                 "tried to remove an account at an address that does not exist: %v"
                 [ArgAddress A]) HG) as (Hl & Hu & _).
  unfold after in Hl, Hu. rewrite Hl. split; [apply latch_code|exact Hu].
Qed.

(** ** Sequence numbers, permissions and roles *)

Lemma IncSequence_found st A acc w w1 :
  GetAccount st A w = ((Some acc, None), w1) →
  IncSequence st A w
    = updateAccount st (with_Sequence acc ((Sequence acc + 1) mod 2 ^ 64)) w1.
Proof.
  intros HG. unfold IncSequence.
  now rewrite (bind_run _ _ _ _ _ (mustAccount_found _ _ _ _ _ HG)).
Qed.

Lemma SetPermission_found st A acc w w1 flag value :
  GetAccount st A w = ((Some acc, None), w1) →
  SetPermission st A flag value w
    = updateAccount st
        (with_Permissions acc
           (with_Base (Permissions acc)
              (BasePermissions_Set (Base (Permissions acc)) flag value))) w1.
Proof.
  intros HG. unfold SetPermission.
  now rewrite (bind_run _ _ _ _ _ (mustAccount_found _ _ _ _ _ HG)).
Qed.

Lemma UnsetPermission_found st A acc w w1 flag :
  GetAccount st A w = ((Some acc, None), w1) →
  UnsetPermission st A flag w
    = updateAccount st
        (with_Permissions acc
           (with_Base (Permissions acc)
              (BasePermissions_Unset (Base (Permissions acc)) flag))) w1.
Proof.
  intros HG. unfold UnsetPermission.
  now rewrite (bind_run _ _ _ _ _ (mustAccount_found _ _ _ _ _ HG)).
Qed.

Lemma AddRole_found st A acc w w1 role :
  GetAccount st A w = ((Some acc, None), w1) →
  let r := AccountPermissions_AddRole (Permissions acc) role in
  AddRole st A role w
    = (fst r, after (updateAccount st (with_Permissions acc (snd r))) w1).
Proof.
  intros HG r. subst r. unfold AddRole.
  rewrite (bind_run _ _ _ _ _ (mustAccount_found _ _ _ _ _ HG)).
  destruct (AccountPermissions_AddRole _ _) as [added perms].
  unfold bind, after, ret. simpl. now destruct (updateAccount _ _ _).
Qed.

Lemma RemoveRole_found st A acc w w1 role :
  GetAccount st A w = ((Some acc, None), w1) →
  let r := AccountPermissions_RemoveRole (Permissions acc) role in
  RemoveRole st A role w
    = (fst r, after (updateAccount st (with_Permissions acc (snd r))) w1).
Proof.
  intros HG r. subst r. unfold RemoveRole.
  rewrite (bind_run _ _ _ _ _ (mustAccount_found _ _ _ _ _ HG)).
  destruct (AccountPermissions_RemoveRole _ _) as [removed perms].
  unfold bind, after, ret. simpl. now destruct (updateAccount _ _ _).
Qed.

(** What a lookup followed by an update leaves, with the read of the
    account afterwards. *)
Lemma update_then_read st A w r w1 acc' bs w' :
  GetAccount st A w = (r, w1) →
  Account_Marshal acc' = (bs, None) →
  w' = after (updateAccount st acc') w1 →
  let key := Address_String (Address_ acc') in
  accounts_of st w' = <[key := bs]> (accounts_of st w) ∧
  writes w' = writes w ++ [PutStateCall key bs] ∧
  storage_maps w' = storage_maps w ∧
  latched st w' = latch (latched st w) (fst (PutState (stub_state w1) key bs)) ∧
  (Address_ acc' = A → decode A bs = (Some acc', None) →
   account st A w' = (Some acc', w')).
Proof.
  intros HG HM -> key.
  destruct (lookup_then_update st A w _ w1 _ bs HG HM)
    as (Hc & _ & Hw & Hs & Hl).
  repeat split; try assumption.
  intros HA HD. apply (account_cached _ _ _ bs); [|exact HD].
  rewrite Hc. rewrite <- HA. apply lookup_insert_eq.
Qed.

(** X6. [IncSequence] on an existing account writes the account with the
    sequence plus one, modulo 2^64, to the account cache and to the store:
    there is no overflow check, and at 2^64 - 1 the sequence wraps to 0
    without an error of its own.  The new sequence reads back. *)
Theorem IncSequence_existing st A acc w w1 bs :
  GetAccount st A w = ((Some acc, None), w1) →
  Account_Marshal (with_Sequence acc ((Sequence acc + 1) mod 2 ^ 64))
    = (bs, None) →
  let key := Address_String (Address_ acc) in
  let w' := after (IncSequence st A) w in
  accounts_of st w' = <[key := bs]> (accounts_of st w) ∧
  writes w' = writes w ++ [PutStateCall key bs] ∧
  storage_maps w' = storage_maps w ∧
  latched st w' = latch (latched st w) (fst (PutState (stub_state w1) key bs)) ∧
  (Sequence acc = MaxUint64 → (Sequence acc + 1) mod 2 ^ 64 = 0) ∧
  (Address_ acc = A →
   decode A bs
     = (Some (with_Sequence acc ((Sequence acc + 1) mod 2 ^ 64)), None) →
   result (GetSequence st A) w' = (Sequence acc + 1) mod 2 ^ 64).
Proof.
  intros HG HM key w'.
  assert (E : w' = after (updateAccount st
                (with_Sequence acc ((Sequence acc + 1) mod 2 ^ 64))) w1).
  { unfold w', after. now rewrite (IncSequence_found _ _ _ _ _ HG). }
  destruct (update_then_read st A w _ w1 _ bs w' HG HM E)
    as (Hc & Hw & Hs & Hl & Hr).
  repeat split; try assumption.
  - intros ->. reflexivity.
  - intros HA HD. unfold result, GetSequence.
    now rewrite (bind_run _ _ _ _ _ (Hr HA HD)).
Qed.

(** X7. [SetPermission] and [UnsetPermission] on an existing account write the
    account with the base permissions the library computed, and nothing
    else changed, to the account cache and to the store; the new
    permissions read back and the balance is the old one. *)
Theorem SetPermission_UnsetPermission_existing st A acc w w1 flag :
  GetAccount st A w = ((Some acc, None), w1) →
  let key := Address_String (Address_ acc) in
  let changed base :=
    with_Permissions acc (with_Base (Permissions acc) base) in
  let written w' acc' bs :=
    accounts_of st w' = <[key := bs]> (accounts_of st w) ∧
    writes w' = writes w ++ [PutStateCall key bs] ∧
    storage_maps w' = storage_maps w ∧
    latched st w' =
      latch (latched st w) (fst (PutState (stub_state w1) key bs)) ∧
    (Address_ acc = A → decode A bs = (Some acc', None) →
     result (GetPermissions st A) w' = Permissions acc' ∧
     result (GetBalance st A) w' = Balance acc) in
  (∀ value bs,
     let acc' :=
       changed (BasePermissions_Set (Base (Permissions acc)) flag value) in
     Account_Marshal acc' = (bs, None) →
     written (after (SetPermission st A flag value) w) acc' bs) ∧
  (∀ bs,
     let acc' :=
       changed (BasePermissions_Unset (Base (Permissions acc)) flag) in
     Account_Marshal acc' = (bs, None) →
     written (after (UnsetPermission st A flag) w) acc' bs).
Proof.
  intros HG key changed written.
  assert (H : ∀ w' base bs,
            Account_Marshal (changed base) = (bs, None) →
            w' = after (updateAccount st (changed base)) w1 →
            written w' (changed base) bs).
  { intros w' base bs HM E.
    destruct (update_then_read st A w _ w1 _ bs w' HG HM E)
      as (Hc & Hw & Hs & Hl & Hr).
    unfold written. split; [exact Hc|]. split; [exact Hw|].
    split; [exact Hs|]. split; [exact Hl|]. intros HA HD.
    unfold result, GetPermissions, GetBalance.
    now rewrite !(bind_run _ _ _ _ _ (Hr HA HD)). }
  split.
  - intros value bs acc' HM. apply H; [exact HM|].
    unfold after. now rewrite (SetPermission_found _ _ _ _ _ _ _ HG).
  - intros bs acc' HM. apply H; [exact HM|].
    unfold after. now rewrite (UnsetPermission_found _ _ _ _ _ _ HG).
Qed.

(** X8. [AddRole] and [RemoveRole] on an existing account return what the
    library returned (whether the roles changed) and write the account to
    the account cache and to the store in both cases: also a call that
    changes no role makes one write on the store. *)
Theorem AddRole_RemoveRole_existing st A acc w w1 role :
  GetAccount st A w = ((Some acc, None), w1) →
  let key := Address_String (Address_ acc) in
  let written w' bs :=
    accounts_of st w' = <[key := bs]> (accounts_of st w) ∧
    writes w' = writes w ++ [PutStateCall key bs] ∧
    storage_maps w' = storage_maps w ∧
    latched st w' =
      latch (latched st w) (fst (PutState (stub_state w1) key bs)) in
  (∀ bs,
     let r := AccountPermissions_AddRole (Permissions acc) role in
     Account_Marshal (with_Permissions acc (snd r)) = (bs, None) →
     result (AddRole st A role) w = fst r ∧
     written (after (AddRole st A role) w) bs) ∧
  (∀ bs,
     let r := AccountPermissions_RemoveRole (Permissions acc) role in
     Account_Marshal (with_Permissions acc (snd r)) = (bs, None) →
     result (RemoveRole st A role) w = fst r ∧
     written (after (RemoveRole st A role) w) bs).
Proof.
  intros HG key written. split.
  - intros bs r HM. unfold result, after.
    rewrite (AddRole_found _ _ _ _ _ role HG). fold r. simpl fst. simpl snd.
    split; [reflexivity|].
    destruct (update_then_read st A w _ w1 _ bs _ HG HM eq_refl)
      as (Hc & Hw & Hs & Hl & _).
    unfold written. repeat split; assumption.
  - intros bs r HM. unfold result, after.
    rewrite (RemoveRole_found _ _ _ _ _ role HG). fold r. simpl fst. simpl snd.
    split; [reflexivity|].
    destruct (update_then_read st A w _ w1 _ bs _ HG HM eq_refl)
      as (Hc & Hw & Hs & Hl & _).
    unfold written. repeat split; assumption.
Qed.

(** ** When the store fails *)

Lemma SetStorage_failed st A K V e w :
  store_refuses A K V e w →
  let w' := after (SetStorage st A K V) w in
  storage_maps w' = storage_maps w ∧ account_maps w' = account_maps w ∧
  storage_of st w' = storage_of st w ∧
  stub_calls w' = stub_calls w ++ [PutStateCall (compKey A K) (Word256_Bytes V)] ∧
  latched st w' = latch (latched st w) (Some e).
Proof.
  intros H w'. unfold store_refuses in H. subst w'. unfold after.
  destruct (PutState _ _ _) as [err s] eqn:E. simpl in H. subst err.
  rewrite (SetStorage_run _ _ _ _ _ _ _ E).
  set (w2 := set_stub s _ w).
  fold (after (PushError st (Some e)) w2).
  destruct (PushError_fields st (Some e) w2) as (_ & Hc & Hs & Ha & _).
  destruct (PushError_caches st (Some e) st w2) as (_ & Hso).
  rewrite Hc, Hs, Ha, Hso, PushError_latched. done.
Qed.

(** X9. [SetStorage] when the store refuses the write: the value is not put
    in the storage cache (no map is changed), the error of the store is
    pushed on the latch, and the call on the store is the only one. *)
Theorem SetStorage_refused st A K V e w :
  store_refuses A K V e w →
  let w' := after (SetStorage st A K V) w in
  storage_maps w' = storage_maps w ∧ account_maps w' = account_maps w ∧
  storage_of st w' = storage_of st w ∧
  stub_calls w' = stub_calls w ++ [PutStateCall (compKey A K) (Word256_Bytes V)] ∧
  latched st w' = latch (latched st w) (Some e).
Proof. apply SetStorage_failed. Qed.

(** X10. [SetStorage] changes at most the entry of its own slot in the
    storage cache: every other key of the cache reads as before, whether
    the store accepts the write or not. *)
Theorem SetStorage_touches_one_slot st A K V w key :
  key ≠ compKey A K →
  storage_of st (after (SetStorage st A K V) w) !! key = storage_of st w !! key.
Proof.
  intros Hne.
  destruct (fst (PutState (stub_state w) (compKey A K) (Word256_Bytes V)))
    as [e|] eqn:E.
  - destruct (SetStorage_failed st A K V e w E) as (_ & _ & -> & _).
    reflexivity.
  - destruct (SetStorage_ok st A K V w E) as (-> & _).
    now apply lookup_insert_ne.
Qed.

(** X11. [GetStorage] of a slot that is not in the storage cache, when the
    read of the store fails: the result is the zero word, the error of the
    store is pushed on the latch, no map is changed and no write is made
    on the store. *)
Theorem GetStorage_read_failure st A K w val e (s : S) :
  storage_of st w !! compKey A K = None →
  GetState (stub_state w) (compKey A K) = ((val, Some e), s) →
  let w' := after (GetStorage st A K) w in
  result (GetStorage st A K) w = Zero256 ∧
  latched st w' = latch (latched st w) (Some e) ∧
  untouched w w' ∧
  stub_calls w' = stub_calls w ++ [GetStateCall (compKey A K)].
Proof.
  intros H E w'.
  assert (HG : GetStorage st A K w =
               (Zero256, after (PushError st (Some e))
                           (set_stub s (GetStateCall (compKey A K)) w))).
  { unfold GetStorage, bind at 1, self. unfold bind at 1, storage_map.
    fold (storage_of st w). rewrite H. unfold bind at 1, stub_GetState.
    rewrite E. unfold bind, after, ret.
    now destruct (PushError st (Some e) _) as [[] w2]. }
  subst w'. unfold result, after at 1 2 3. rewrite HG. simpl fst. simpl snd.
  set (w2 := set_stub s _ w).
  destruct (PushError_fields st (Some e) w2) as (_ & Hc & _).
  destruct (PushError_untouched st (Some e) w2) as (Hs & Ha & Hw).
  split; [reflexivity|]. split; [now rewrite PushError_latched|].
  split; [|now rewrite Hc].
  unfold untouched. rewrite Hs, Ha, Hw. repeat split.
  apply writes_set_stub_read.
Qed.

Lemma account_failed st A w e w1 :
  GetAccount st A w = ((None, Some e), w1) →
  account st A w = (None, after (PushError st (Some e)) w1).
Proof.
  intros HG. unfold account. rewrite (bind_run _ _ _ _ _ HG).
  unfold bind, after, ret. now destruct (PushError _ _ _) as [[] ?].
Qed.

(** X12. When the lookup of an account fails (the read of the store or the
    decoding of the bytes returns an error), [GetAccount] returns the
    error and leaves the latch as it was, while [Exists] returns false and
    [GetBalance], [GetSequence], [GetCode] and [GetPermissions] return the
    zero value, each after pushing the error on the latch; none changes a
    map or makes a write on the store. *)
Theorem accessors_on_failed_lookup st A w e w1 :
  GetAccount st A w = ((None, Some e), w1) →
  let pushed {T} (m : M (World S) T) (zero : T) :=
    result m w = zero ∧ latched st (after m w) = latch (latched st w) (Some e) ∧
    untouched w (after m w) in
  latched st (after (GetAccount st A) w) = latched st w ∧
  pushed (Exists st A) false ∧ pushed (GetBalance st A) 0 ∧
  pushed (GetSequence st A) 0 ∧ pushed (GetCode st A) [] ∧
  pushed (GetPermissions st A) ZeroPermissions.
Proof.
  intros HG pushed.
  destruct (lookup_then_push st A w _ w1 (Some e) HG) as (Hl & Hu & _).
  pose proof (account_failed _ _ _ _ _ HG) as HA.
  assert (HE : Exists st A w = (false, after (PushError st (Some e)) w1)).
  { unfold Exists. rewrite (bind_run _ _ _ _ _ HG).
    unfold bind, after, ret. now destruct (PushError _ _ _) as [[] ?]. }
  split.
  { apply reads_only_latched, GetAccount_reads_only. }
  unfold pushed, result, after at 1 2 3 4 5 6 7 8 9 10,
    GetBalance, GetSequence, GetCode, GetPermissions.
  rewrite HE, !(bind_run _ _ _ _ _ HA). simpl.
  repeat split; first [exact Hl | apply Hu].
Qed.

(** X13. [CreateAccount] after a failed lookup: [Exists] is false also when
    the lookup failed, so the new account is written to the account cache
    and to the store all the same; the latch holds the error of the
    lookup. *)
Theorem CreateAccount_after_failed_lookup st A w e w1 bs :
  GetAccount st A w = ((None, Some e), w1) →
  Account_Marshal (NewAccount A) = (bs, None) →
  let key := Address_String A in
  let w' := after (CreateAccount st A) w in
  accounts_of st w' = <[key := bs]> (accounts_of st w) ∧
  writes w' = writes w ++ [PutStateCall key bs] ∧
  storage_maps w' = storage_maps w ∧
  latched st w' =
    latch (latch (latched st w) (Some e))
          (fst (PutState (stub_state w1) key bs)).
Proof.
  intros HG HM key w'.
  destruct (lookup_then_push st A w _ w1 (Some e) HG) as (Hl & Hu & Ha & _).
  set (w2 := after (PushError st (Some e)) w1) in *.
  assert (HE : Exists st A w = (false, w2)).
  { unfold Exists. rewrite (bind_run _ _ _ _ _ HG).
    unfold bind, w2, after, ret. now destruct (PushError _ _ _) as [[] ?]. }
  assert (E : w' = after (updateAccount st (NewAccount A)) w2).
  { unfold w', after, CreateAccount. now rewrite (bind_run _ _ _ _ _ HE). }
  destruct (updateAccount_spec st (NewAccount A) w2 bs HM)
    as (Hc' & Hcalls & Hs' & Hl').
  simpl in Hc', Hcalls, Hl'. fold key in Hc', Hcalls, Hl'.
  rewrite <- E in Hc', Hcalls, Hs', Hl'.
  destruct (PushError_fields st (Some e) w1) as (Hstub & _).
  fold w2 in Hstub.
  destruct Hu as (Hs & _ & Hw).
  rewrite Hc', Ha, Hs', Hs, Hl', Hl, Hstub.
  repeat split. rewrite <- Hw. apply (writes_app _ _ _ Hcalls eq_refl).
Qed.

(** X14. An account that is in the account cache is served from it: [Exists]
    and the four accessors return what the cached bytes decode to, and the
    world (the stub and the log of its calls included) is as it was. *)
Theorem accessors_on_cached_account st A w bs acc :
  accounts_of st w !! Address_String A = Some bs →
  decode A bs = (Some acc, None) →
  Exists st A w = (true, w) ∧
  GetBalance st A w = (Balance acc, w) ∧
  GetSequence st A w = (Sequence acc, w) ∧
  GetCode st A w = (Code_ acc, w) ∧
  GetPermissions st A w = (Permissions acc, w).
Proof.
  intros H HD.
  pose proof (GetAccount_cached _ _ _ _ _ H HD) as HG.
  pose proof (account_cached _ _ _ _ _ H HD) as HA.
  unfold GetBalance, GetSequence, GetCode, GetPermissions.
  rewrite (Exists_found _ _ _ _ _ HG), !(bind_run _ _ _ _ _ HA).
  repeat split.
Qed.

(** ** Sequences of operations *)

Lemma CreateAccount_missing st A w w1 :
  GetAccount st A w = ((None, None), w1) →
  CreateAccount st A w = updateAccount st (NewAccount A) w1.
Proof.
  intros HG. unfold CreateAccount.
  now rewrite (bind_run _ _ _ _ _ (Exists_missing _ _ _ _ HG)).
Qed.

Lemma CreateAccount_found st A w acc w1 :
  GetAccount st A w = ((Some acc, None), w1) →
  CreateAccount st A w =
  PushError st
    (ErrorCodef ErrorCodeDuplicateAddress
       "tried to create an account at an address that already exists: %v %v"
       [ArgAddress A; ArgAccount (fst (result (GetAccount st A) w1))])
    (after (GetAccount st A) w1).
Proof.
  intros HG. unfold CreateAccount.
  rewrite (bind_run _ _ _ _ _ (Exists_found _ _ _ _ _ HG)).
  unfold bind at 1, result, after.
  now destruct (GetAccount st A w1) as [[acc2 err2] w2].
Qed.

Lemma AddToBalance_found st A acc w w1 amount :
  GetAccount st A w = ((Some acc, None), w1) →
  IsUint64SumOverflow (Balance acc) amount = false →
  AddToBalance st A amount w
    = updateAccount st (with_Balance acc (wrap64 (Balance acc + amount))) w1.
Proof.
  intros HG Ho. unfold AddToBalance.
  now rewrite (bind_run _ _ _ _ _ (mustAccount_found _ _ _ _ _ HG)), Ho.
Qed.

(** X15. [CreateAccount] twice at an address without account: the second call
    finds the account of the first in the account cache, pushes the
    duplicate-address error and writes nothing, so exactly one write was
    made on the store. *)
Theorem CreateAccount_twice st A w w1 bs acc :
  GetAccount st A w = ((None, None), w1) →
  Account_Marshal (NewAccount A) = (bs, None) →
  decode A bs = (Some acc, None) →
  let key := Address_String A in
  let w' := after (CreateAccount st A) w in
  let w'' := after (CreateAccount st A) w' in
  writes w'' = writes w ++ [PutStateCall key bs] ∧
  accounts_of st w'' = <[key := bs]> (accounts_of st w) ∧
  latches (latched st w') ErrorCodeDuplicateAddress (latched st w'').
Proof.
  intros HG HM HD key w' w''.
  assert (E : w' = after (updateAccount st (NewAccount A)) w1).
  { unfold w', after. now rewrite (CreateAccount_missing _ _ _ _ HG). }
  destruct (update_then_read st A w _ w1 (NewAccount A) bs w' HG HM E)
    as (Hc & Hw & _ & _ & _).
  simpl in Hc, Hw. fold key in Hc, Hw. clearbody w'.
  assert (Hk : accounts_of st w' !! key = Some bs).
  { rewrite Hc. apply lookup_insert_eq. }
  pose proof (GetAccount_cached _ _ _ _ _ Hk HD) as HG'.
  set (err := ErrorCodef ErrorCodeDuplicateAddress
                "tried to create an account at an address that already exists: %v %v"
                [ArgAddress A; ArgAccount (Some acc)]).
  assert (E2 : w'' = after (PushError st err) w').
  { unfold w'', after at 1. rewrite (CreateAccount_found _ _ _ _ _ HG').
    unfold result. rewrite (run_pair (GetAccount st A) w') in HG'.
    injection HG' as Hres Haft. unfold result in Hres. now rewrite Hres, Haft. }
  destruct (lookup_then_push st A w' _ w' err HG')
    as (Hl & (_ & _ & Hw2) & Ha & _).
  rewrite <- E2 in Hl, Hw2, Ha.
  rewrite Hw2, Hw, Ha, Hc, Hl. repeat split. apply latch_code.
Qed.

(** X16. [AddToBalance] of x and then of y on an existing account, when
    balance + x + y fits in a uint64: the second call reads the account
    that the first one put in the account cache, the balance becomes
    balance + x + y, and two writes are made on the store, in that
    order. *)
Theorem AddToBalance_twice st A acc w w1 x y bs1 bs2 :
  GetAccount st A w = ((Some acc, None), w1) →
  Address_ acc = A →
  is_uint64 (Balance acc) → is_uint64 x → is_uint64 y →
  Balance acc + x + y ≤ MaxUint64 →
  IsUint64SumOverflow_correct →
  Account_Marshal (with_Balance acc (Balance acc + x)) = (bs1, None) →
  decode A bs1 = (Some (with_Balance acc (Balance acc + x)), None) →
  Account_Marshal (with_Balance acc (Balance acc + x + y)) = (bs2, None) →
  let key := Address_String A in
  let w'' := after (AddToBalance st A x ;; AddToBalance st A y) w in
  writes w'' = writes w ++ [PutStateCall key bs1; PutStateCall key bs2] ∧
  accounts_of st w'' !! key = Some bs2 ∧
  (decode A bs2 = (Some (with_Balance acc (Balance acc + x + y)), None) →
   result (GetBalance st A) w'' = Balance acc + x + y).
Proof.
  intros HG HA Hb Hx Hy Hsum Hov HM1 HD1 HM2 key w''.
  unfold is_uint64 in Hb, Hx, Hy.
  assert (Ho1 : IsUint64SumOverflow (Balance acc) x = false).
  { destruct (IsUint64SumOverflow (Balance acc) x) eqn:E; [|reflexivity].
    apply (Hov _ _ Hb Hx) in E. lia. }
  assert (Ho2 : IsUint64SumOverflow (Balance acc + x) y = false).
  { destruct (IsUint64SumOverflow (Balance acc + x) y) eqn:E; [|reflexivity].
    apply Hov in E; unfold is_uint64; lia. }
  set (w' := after (AddToBalance st A x) w).
  assert (E1 : w' = after (updateAccount st
                 (with_Balance acc (Balance acc + x))) w1).
  { unfold w', after. rewrite (AddToBalance_found _ _ _ _ _ _ HG Ho1).
    rewrite wrap64_small by (unfold is_uint64; lia). reflexivity. }
  destruct (update_then_read st A w _ w1 _ bs1 w' HG HM1 E1)
    as (Hc & Hw & _ & _ & _).
  simpl in Hc, Hw. rewrite HA in Hc, Hw. fold key in Hc, Hw.
  assert (Hk : accounts_of st w' !! key = Some bs1).
  { rewrite Hc. apply lookup_insert_eq. }
  pose proof (GetAccount_cached _ _ _ _ _ Hk HD1) as HG'.
  assert (E2 : w'' = after (updateAccount st
                 (with_Balance acc (Balance acc + x + y))) w').
  { unfold w''. rewrite after_bind. fold w'. unfold after at 1.
    rewrite (AddToBalance_found _ _ _ _ _ _ HG' Ho2). simpl Balance.
    rewrite wrap64_small by (unfold is_uint64; lia). reflexivity. }
  clearbody w' w''.
  destruct (update_then_read st A w' _ w' _ bs2 w'' HG' HM2 E2)
    as (Hc2 & Hw2 & _ & _ & Hr).
  simpl in Hc2, Hw2, Hr. rewrite HA in Hc2, Hw2. fold key in Hc2, Hw2.
  split; [|split].
  - rewrite Hw2, Hw, <- app_assoc. reflexivity.
  - rewrite Hc2. apply lookup_insert_eq.
  - intros HD2. unfold result, GetBalance.
    now rewrite (bind_run _ _ _ _ _ (Hr HA HD2)).
Qed.

(** ** Writing an account when the write fails *)

(** X17. [CreateAccount] when the store refuses the write: the account was put
    in the account cache before the call on the store and stays there, so
    the latch holds the error of the store and still [Exists] is true
    afterwards (a refused [SetStorage], in contrast, caches nothing). *)
Theorem CreateAccount_store_refused st A w w1 bs e acc :
  GetAccount st A w = ((None, None), w1) →
  Account_Marshal (NewAccount A) = (bs, None) →
  fst (PutState (stub_state w1) (Address_String A) bs) = Some e →
  decode A bs = (Some acc, None) →
  let w' := after (CreateAccount st A) w in
  latched st w' = latch (latched st w) (Some e) ∧
  accounts_of st w' !! Address_String A = Some bs ∧
  Exists st A w' = (true, w').
Proof.
  intros HG HM HP HD w'.
  assert (E : w' = after (updateAccount st (NewAccount A)) w1).
  { unfold w', after. now rewrite (CreateAccount_missing _ _ _ _ HG). }
  destruct (update_then_read st A w _ w1 (NewAccount A) bs w' HG HM E)
    as (Hc & _ & _ & Hl & _).
  simpl in Hc, Hl. rewrite HP in Hl.
  assert (Hk : accounts_of st w' !! Address_String A = Some bs).
  { rewrite Hc. apply lookup_insert_eq. }
  split; [exact Hl|]. split; [exact Hk|].
  apply (Exists_found _ _ _ acc), (GetAccount_cached _ _ _ bs); assumption.
Qed.

(** ** Code *)

Lemma InitCode_found st A acc w w1 code :
  GetAccount st A w = ((Some acc, None), w1) →
  InitCode st A code w =
  (if (0 <? length (Code_ acc))%nat
   then PushError st (ErrorCodef ErrorCodeIllegalWrite
          "tried to initialise code for a contract that already exists: %v existing code %v"
          [ArgAddress A; ArgBytes (Code_ acc)])
   else updateAccount st (with_Code acc code)) w1.
Proof.
  intros HG. unfold InitCode.
  now rewrite (bind_run _ _ _ _ _ (mustAccount_found _ _ _ _ _ HG)).
Qed.

(** X19. [InitCode] on an account whose code is not empty pushes the
    illegal-write error on the latch, whatever the new code (the same
    code and the empty code included), changes no map and makes no write
    on the store. *)
Theorem InitCode_on_existing_code st A acc w w1 code :
  GetAccount st A w = ((Some acc, None), w1) →
  Code_ acc ≠ [] →
  let w' := after (InitCode st A code) w in
  latches (latched st w) ErrorCodeIllegalWrite (latched st w') ∧
  untouched w w' ∧ accounts_of st w' = accounts_of st w.
Proof.
  intros HG HC w'. subst w'. unfold after.
  rewrite (InitCode_found _ _ _ _ _ _ HG).
  destruct (Code_ acc) as [|c0 C] eqn:E; [done|]. simpl.
  destruct (lookup_then_push st A w _ w1 (ErrorCodef ErrorCodeIllegalWrite
              "tried to initialise code for a contract that already exists: %v existing code %v"
              [ArgAddress A; ArgBytes (c0 :: C)]) HG) as (Hl & Hu & Hc & _).
  unfold after in Hl, Hu, Hc. rewrite Hl.
  split; [apply latch_code|]. split; assumption.
Qed.

(** X20. The code is final only once it is not empty: [InitCode] with the
    empty code on an account without code writes the account and pushes
    no error of its own, and a later [InitCode] with a code writes that
    code; two writes are made on the store. *)
Theorem InitCode_empty_then_code st A acc w w1 C bs1 bs2 :
  GetAccount st A w = ((Some acc, None), w1) →
  Address_ acc = A → Code_ acc = [] →
  Account_Marshal (with_Code acc []) = (bs1, None) →
  decode A bs1 = (Some (with_Code acc []), None) →
  Account_Marshal (with_Code acc C) = (bs2, None) →
  let key := Address_String A in
  let w' := after (InitCode st A []) w in
  let w'' := after (InitCode st A C) w' in
  writes w'' = writes w ++ [PutStateCall key bs1; PutStateCall key bs2] ∧
  accounts_of st w'' !! key = Some bs2 ∧
  latched st w' = latch (latched st w) (fst (PutState (stub_state w1) key bs1)) ∧
  latched st w'' =
    latch (latched st w') (fst (PutState (stub_state w') key bs2)).
Proof.
  intros HG HA HC HM1 HD1 HM2 key w' w''.
  assert (E1 : w' = after (updateAccount st (with_Code acc [])) w1).
  { unfold w', after. now rewrite (InitCode_found _ _ _ _ _ _ HG), HC. }
  destruct (update_then_read st A w _ w1 _ bs1 w' HG HM1 E1)
    as (Hc & Hw & _ & Hl & _).
  simpl in Hc, Hw, Hl. rewrite HA in Hc, Hw, Hl. fold key in Hc, Hw, Hl.
  assert (Hk : accounts_of st w' !! key = Some bs1).
  { rewrite Hc. apply lookup_insert_eq. }
  pose proof (GetAccount_cached _ _ _ _ _ Hk HD1) as HG'.
  assert (E2 : w'' = after (updateAccount st (with_Code acc C)) w').
  { unfold w'', after at 1. now rewrite (InitCode_found _ _ _ _ _ _ HG'). }
  clearbody w' w''.
  destruct (update_then_read st A w' _ w' _ bs2 w'' HG' HM2 E2)
    as (Hc2 & Hw2 & _ & Hl2 & _).
  simpl in Hc2, Hw2, Hl2. rewrite HA in Hc2, Hw2, Hl2.
  fold key in Hc2, Hw2, Hl2.
  split; [|split; [|split]].
  - rewrite Hw2, Hw, <- app_assoc. reflexivity.
  - rewrite Hc2. apply lookup_insert_eq.
  - exact Hl.
  - exact Hl2.
Qed.

(** ** Adapters *)

Lemma apply_options_readonly m o :
  readonly (apply_options m o) = true ↔ readonly m = true ∨ List.In ReadOnly o.
Proof.
  revert m. induction o as [|x o IH]; intros m.
  - simpl. tauto.
  - change (apply_options m (x :: o))
      with (apply_options
              (match x with ReadOnly => with_readonly m true | _ => m end) o).
    rewrite IH. destruct x; simpl; [tauto|].
    split; [tauto|]. intros [H|[H|H]]; [tauto|discriminate|tauto].
Qed.

(** X21. The read-only mark of a view is set exactly when [ReadOnly] is among
    the options of [NewCache], and it is only a mark: [SetStorage] through
    a view, read-only or not, still writes the slot to the store and to
    the storage cache, where the parent reads it. *)
Theorem NewCache_readonly_is_a_mark p o w :
  is_Some (managers w !! p) →
  let v := result (NewCache p o) w in
  let w1 := after (NewCache p o) w in
  (readonly (managers w1 !!! v) = true ↔ List.In ReadOnly o) ∧
  (∀ A K V,
     store_accepts A K V w1 →
     let w2 := after (SetStorage v A K V) w1 in
     writes w2 = writes w1 ++ [PutStateCall (compKey A K) (Word256_Bytes V)] ∧
     storage_of v w2 !! compKey A K = Some V ∧
     storage_of p w2 !! compKey A K = Some V).
Proof.
  intros [m Hm] v w1. unfold result in v. unfold after in w1.
  subst v w1. rewrite NewCache_run. simpl fst. simpl snd.
  set (v := fresh (dom (managers w))).
  set (nm := apply_options _ o).
  set (w1 := set_manager v nm w).
  assert (Hvp : v ≠ p).
  { intros E. pose proof (is_fresh (dom (managers w))) as Hf. fold v in Hf.
    rewrite E in Hf. apply Hf, elem_of_dom. now exists m. }
  assert (Hv1 : managers w1 !!! v = nm).
  { unfold w1. simpl. apply lookup_total_insert_eq. }
  assert (Hp1 : managers w1 !!! p = m).
  { unfold w1. simpl. rewrite lookup_total_insert_ne by done.
    apply lookup_total_correct, Hm. }
  destruct (apply_options_fields
              (mkStateManager (storageCache (managers w !!! p))
                              (accountCache (managers w !!! p)) None false) o)
    as (Hns & _ & _).
  fold nm in Hns. simpl in Hns.
  rewrite (lookup_total_correct _ _ _ Hm) in Hns.
  split.
  - rewrite Hv1. unfold nm. rewrite apply_options_readonly. simpl.
    split; [intros [H|H]; [discriminate|exact H]|tauto].
  - intros A K V HP w2.
    destruct (SetStorage_ok v A K V w1 HP) as (Hs & Hc & Hmg & _).
    fold w2 in Hs, Hc, Hmg.
    assert (Hv : storage_of v w2 !! compKey A K = Some V).
    { rewrite Hs. apply lookup_insert_eq. }
    split; [apply (writes_app _ _ _ Hc eq_refl)|]. split; [exact Hv|].
    unfold storage_of in Hv |- *. rewrite Hmg in Hv |- *.
    rewrite Hv1 in Hv. rewrite Hp1. now rewrite <- Hns.
Qed.


(** ** A transfer *)

Lemma SubtractFromBalance_found st A acc w w1 amount :
  GetAccount st A w = ((Some acc, None), w1) →
  amount ≤ Balance acc →
  SubtractFromBalance st A amount w
    = updateAccount st (with_Balance acc (wrap64 (Balance acc - amount))) w1.
Proof.
  intros HG Hle. unfold SubtractFromBalance.
  rewrite (bind_run _ _ _ _ _ (mustAccount_found _ _ _ _ _ HG)).
  destruct (Balance acc <? amount) eqn:E; [|reflexivity].
  apply Z.ltb_lt in E. lia.
Qed.

(** X23. A transfer of x from the account at A to the account at B
    ([SubtractFromBalance] at A, then [AddToBalance] at B), when A holds
    at least x and x fits in B: the balance of A is lowered by x and the
    balance of B raised by x, so their sum is kept, and the two accounts
    are written to the store, A first. *)
Theorem transfer_keeps_the_sum st A B accA accB x w w1 w1' bsA bsB :
  let w' := after (SubtractFromBalance st A x) w in
  let w'' := after (AddToBalance st B x) w' in
  GetAccount st A w = ((Some accA, None), w1) →
  GetAccount st B w' = ((Some accB, None), w1') →
  Address_ accA = A → Address_ accB = B →
  Address_String A ≠ Address_String B →
  is_uint64 (Balance accA) → is_uint64 (Balance accB) → is_uint64 x →
  x ≤ Balance accA → Balance accB + x ≤ MaxUint64 →
  IsUint64SumOverflow_correct →
  Account_Marshal (with_Balance accA (Balance accA - x)) = (bsA, None) →
  decode A bsA = (Some (with_Balance accA (Balance accA - x)), None) →
  Account_Marshal (with_Balance accB (Balance accB + x)) = (bsB, None) →
  decode B bsB = (Some (with_Balance accB (Balance accB + x)), None) →
  result (GetBalance st A) w'' = Balance accA - x ∧
  result (GetBalance st B) w'' = Balance accB + x ∧
  result (GetBalance st A) w'' + result (GetBalance st B) w''
    = Balance accA + Balance accB ∧
  writes w'' = writes w ++ [PutStateCall (Address_String A) bsA;
                            PutStateCall (Address_String B) bsB].
Proof.
  intros w' w'' HGA HGB HA HB Hne Ha Hb Hx Hle Hsum Hov HMA HDA HMB HDB.
  unfold is_uint64 in Ha, Hb, Hx.
  assert (E1 : w' = after (updateAccount st
                 (with_Balance accA (Balance accA - x))) w1).
  { unfold w', after. rewrite (SubtractFromBalance_found _ _ _ _ _ _ HGA Hle).
    rewrite wrap64_small by (unfold is_uint64; lia). reflexivity. }
  destruct (update_then_read st A w _ w1 _ bsA w' HGA HMA E1)
    as (Hc & Hw & _ & _ & _).
  simpl in Hc, Hw. rewrite HA in Hc, Hw.
  assert (Ho : IsUint64SumOverflow (Balance accB) x = false).
  { destruct (IsUint64SumOverflow (Balance accB) x) eqn:E; [|reflexivity].
    apply (Hov _ _ Hb Hx) in E. lia. }
  assert (E2 : w'' = after (updateAccount st
                 (with_Balance accB (Balance accB + x))) w1').
  { unfold w'', after at 1. rewrite (AddToBalance_found _ _ _ _ _ _ HGB Ho).
    rewrite wrap64_small by (unfold is_uint64; lia). reflexivity. }
  clearbody w' w''.
  destruct (update_then_read st B w' _ w1' _ bsB w'' HGB HMB E2)
    as (Hc2 & Hw2 & _ & _ & _).
  simpl in Hc2, Hw2. rewrite HB in Hc2, Hw2.
  assert (HkA : accounts_of st w'' !! Address_String A = Some bsA).
  { rewrite Hc2, lookup_insert_ne by done. rewrite Hc.
    apply lookup_insert_eq. }
  assert (HkB : accounts_of st w'' !! Address_String B = Some bsB).
  { rewrite Hc2. apply lookup_insert_eq. }
  assert (HbA : result (GetBalance st A) w'' = Balance accA - x).
  { now rewrite (GetBalance_cached _ _ _ _ _ HkA HDA). }
  assert (HbB : result (GetBalance st B) w'' = Balance accB + x).
  { now rewrite (GetBalance_cached _ _ _ _ _ HkB HDB). }
  split; [exact HbA|]. split; [exact HbB|]. split; [rewrite HbA, HbB; lia|].
  rewrite Hw2, Hw, <- app_assoc. reflexivity.
Qed.

End Further.

(** ** The query of the code of a contract *)

Section Chaincode.

Context `{Lib : Library} `{CLib : ChaincodeLibrary} {S : Type}
        `{Stub : !ChaincodeStubInterface S}.

Implicit Types (w : World S) (st : loc).

Lemma getCode_decoded st address c a w :
  hex_DecodeString (string_of_list_byte address) = (c, None) →
  AddressFromBytes c = (a, None) →
  getCode st address w =
  (match latched st (after (GetCode st a) w) with
   | Some _ => Panicked
   | None =>
       Returned (shim_Success
         (list_byte_of_string (hex_EncodeToString (result (GetCode st a) w))))
   end,
   after (GetCode st a) w).
Proof.
  intros Hc Ha. unfold getCode. rewrite Hc, Ha.
  rewrite (bind_run _ _ _ _ _ (run_pair (GetCode st a) w)).
  rewrite (bind_run _ _ _ _ _ (Error_run st _)).
  now destruct (latched st (after (GetCode st a) w)).
Qed.

Lemma GetCode_keeps_latch st a w e :
  latched st w = Some e → latched st (after (GetCode st a) w) = Some e.
Proof.
  intros H. pose proof (run_keeps_latches st (CallGetCode a) w st e H) as HK.
  simpl run in HK. now rewrite after_bind in HK.
Qed.

(** X24. [getCode] never answers "failed to get contract account": where it
    finds an error latched after reading the code, it formats the
    variable [err], which is nil there, and panics.  This is the case when
    the adapter had a latched error, and when the lookup of the account
    fails. *)
Theorem getCode_panics_on_a_latched_error st address c a w :
  hex_DecodeString (string_of_list_byte address) = (c, None) →
  AddressFromBytes c = (a, None) →
  (is_Some (latched st w) ∨
   ∃ e w1, GetAccount st a w = ((None, Some e), w1) ∧
           is_Some (AsException (Some e))) →
  result (getCode st address) w = Panicked.
Proof.
  intros Hc Ha H. unfold result. rewrite (getCode_decoded _ _ _ _ _ Hc Ha).
  simpl fst.
  destruct H as [[e He]|(e & w1 & HG & [ex Hex])].
  - now rewrite (GetCode_keeps_latch _ _ _ _ He).
  - destruct (lookup_then_push st a w _ w1 (Some e) HG) as (Hl & _).
    unfold after at 1, GetCode.
    rewrite (bind_run _ _ _ _ _ (account_failed _ _ _ _ _ HG)). simpl snd.
    rewrite Hl. unfold latch. destruct (latched st w); [reflexivity|].
    now rewrite Hex.
Qed.

(** X25. [getCode] answers an error when the address is not hexadecimal text
    or not an address, without a call on the adapter; otherwise, when no
    error is latched after the read, it answers the code of the account in
    hexadecimal, which is the encoding of the empty code for an address
    without account.  It never changes a map nor writes to the store. *)
Theorem getCode_answers st address w :
  untouched w (after (getCode st address) w) ∧
  (∀ c e,
     hex_DecodeString (string_of_list_byte address) = (c, Some e) →
     getCode st address w =
     (Returned (shim_Error
        (fmt_Sprintf "failed to decode callee address from %s: %s"
           [ArgString (string_of_list_byte address);
            ArgString (error_Error e)])), w)) ∧
  (∀ c a e,
     hex_DecodeString (string_of_list_byte address) = (c, None) →
     AddressFromBytes c = (a, Some e) →
     getCode st address w =
     (Returned (shim_Error
        (fmt_Sprintf "failed to get callee address: %s"
           [ArgString (error_Error e)])), w)) ∧
  (∀ c a,
     hex_DecodeString (string_of_list_byte address) = (c, None) →
     AddressFromBytes c = (a, None) →
     latched st (after (GetCode st a) w) = None →
     getCode st address w =
     (Returned (shim_Success
        (list_byte_of_string (hex_EncodeToString (result (GetCode st a) w)))),
      after (GetCode st a) w)) ∧
  (∀ c a w1,
     hex_DecodeString (string_of_list_byte address) = (c, None) →
     AddressFromBytes c = (a, None) →
     latched st w = None →
     GetAccount st a w = ((None, None), w1) →
     getCode st address w =
     (Returned (shim_Success (list_byte_of_string (hex_EncodeToString []))),
      w1)).
Proof.
  split; [|split; [|split; [|split]]].
  - destruct (hex_DecodeString (string_of_list_byte address)) as [c [e|]] eqn:Hc.
    { unfold after, getCode. rewrite Hc. repeat split. }
    destruct (AddressFromBytes c) as [a [e|]] eqn:Ha.
    { unfold after, getCode. rewrite Hc, Ha. repeat split. }
    unfold after at 1. rewrite (getCode_decoded _ _ _ _ _ Hc Ha). simpl snd.
    pose proof (run_untouched st (CallGetCode a) w) as HF.
    simpl run in HF. rewrite after_bind in HF. apply HF.
    simpl. intuition.
  - intros c e Hc. unfold getCode. now rewrite Hc.
  - intros c a e Hc Ha. unfold getCode. now rewrite Hc, Ha.
  - intros c a Hc Ha Hl. now rewrite (getCode_decoded _ _ _ _ _ Hc Ha), Hl.
  - intros c a w1 Hc Ha Hl HG.
    assert (E : GetCode st a w = ([], w1)).
    { unfold GetCode.
      now rewrite (bind_run _ _ _ _ _ (account_found _ _ _ _ _ HG)). }
    rewrite (getCode_decoded _ _ _ _ _ Hc Ha). unfold result, after.
    rewrite E. simpl.
    now rewrite (reads_only_latched _ _ st (GetAccount_world _ _ _ _ _ HG)), Hl.
Qed.

End Chaincode.

(** ** The further properties on the test fixture *)

Lemma non_mutators_never_write_witness :
  untouched (funded 123) (after (run sm (CallGetBalance addr)) (funded 123)).
Proof. apply non_mutators_never_write. reflexivity. Defined.

Lemma caches_are_separate_witness :
  storage_maps (after (run sm (CallAddToBalance addr 1)) (funded 123))
    = storage_maps (funded 123) ∧
  account_maps (after (run sm (CallSetStorage addr slot_key initialVal))
                      (funded 123))
    = account_maps (funded 123).
Proof.
  split.
  - apply (proj1 (caches_are_separate sm (CallAddToBalance addr 1)
                    (funded 123))). discriminate.
  - apply (proj2 (caches_are_separate sm
                    (CallSetStorage addr slot_key initialVal) (funded 123))).
    right. eauto.
Defined.

Lemma mutators_need_the_account_witness :
  untouched (started ∅) (after (run sm (CallAddToBalance addr 5)) (started ∅)) ∧
  result (AddRole sm addr "admin") (started ∅) = false.
Proof.
  destruct (mutators_need_the_account sm (CallAddToBalance addr 5) addr
              (started ∅) (after (GetAccount sm addr) (started ∅)))
    as (_ & Hu & Hr).
  - reflexivity.
  - vm_compute. reflexivity.
  - split; [exact Hu|apply Hr].
Defined.

Lemma RemoveAccount_existing_witness :
  let w' := after (RemoveAccount sm addr) created in
  accounts_of sm w' !! Address_String addr = None ∧
  writes w' = writes created ++ [DelStateCall (Address_String addr)] ∧
  stub_calls (after (GetAccount sm addr) w')
    = stub_calls w' ++ [GetStateCall (Address_String addr)].
Proof.
  intros w'.
  destruct (RemoveAccount_existing sm addr created_account created created)
    as (Ha & Hw & _ & _ & Hc).
  - vm_compute. reflexivity.
  - fold w' in Ha, Hw, Hc. split; [|split; assumption].
    rewrite Ha. apply lookup_delete_eq.
Defined.

Lemma RemoveAccount_missing_witness :
  untouched (started ∅) (after (RemoveAccount sm addr) (started ∅)).
Proof.
  apply (RemoveAccount_missing sm addr (started ∅)
           (after (GetAccount sm addr) (started ∅))).
  vm_compute. reflexivity.
Defined.

Lemma IncSequence_existing_witness :
  let w := started (ledger_of last_sequence) in
  result (GetSequence sm addr) w = MaxUint64 ∧
  result (GetSequence sm addr) (after (IncSequence sm addr) w) = 0.
Proof.
  intros w. split; [vm_compute; reflexivity|].
  destruct (IncSequence_existing sm addr last_sequence w
              (after (GetAccount sm addr) w)
              (fst (marshal (with_Sequence last_sequence 0))))
    as (_ & _ & _ & _ & _ & Hr).
  - vm_compute. reflexivity.
  - reflexivity.
  - apply Hr; [reflexivity|vm_compute; reflexivity].
Defined.

Lemma SetPermission_UnsetPermission_existing_witness :
  result (GetPermissions sm addr)
         (after (SetPermission sm addr 4 true) (funded 123))
    = mkAccountPermissions (mkBasePermissions 4 4) [] ∧
  result (GetBalance sm addr)
         (after (UnsetPermission sm addr 4) (funded 123)) = 123.
Proof.
  destruct (SetPermission_UnsetPermission_existing sm addr (an_account 123 [])
              (funded 123) (after (GetAccount sm addr) (funded 123)) 4)
    as (HS & HU); [vm_compute; reflexivity|].
  split.
  - destruct (HS true (fst (marshal
               (mkAccount addr [] 0 123 []
                  (mkAccountPermissions (mkBasePermissions 4 4) [])))))
      as (_ & _ & _ & _ & Hr); [reflexivity|].
    apply Hr; [reflexivity|vm_compute; reflexivity].
  - destruct (HU (fst (marshal (an_account 123 []))))
      as (_ & _ & _ & _ & Hr); [reflexivity|].
    apply Hr; [reflexivity|vm_compute; reflexivity].
Defined.

Lemma AddRole_RemoveRole_existing_witness :
  let w := started (ledger_of an_admin) in
  (result (AddRole sm addr "admin") w = false ∧
   writes (after (AddRole sm addr "admin") w)
     = [PutStateCall (Address_String addr) (fst (marshal an_admin))] ∧
   result (RemoveRole sm addr "admin") w = true ∧
   writes (after (RemoveRole sm addr "admin") w)
     = [PutStateCall (Address_String addr)
          (fst (marshal (an_account 123 [])))]) ∧
  (result (AddRole sm addr "admin") (funded 123) = true ∧
   writes (after (AddRole sm addr "admin") (funded 123))
     = [PutStateCall (Address_String addr) (fst (marshal an_admin))] ∧
   result (RemoveRole sm addr "admin") (funded 123) = false ∧
   writes (after (RemoveRole sm addr "admin") (funded 123))
     = [PutStateCall (Address_String addr)
          (fst (marshal (an_account 123 [])))]).
Proof.
  intros w. split.
  - destruct (AddRole_RemoveRole_existing sm addr an_admin w
                (after (GetAccount sm addr) w) "admin") as (HA & HR);
      [vm_compute; reflexivity|].
    destruct (HA (fst (marshal an_admin))) as (Hr & _ & Hw & _);
      [reflexivity|].
    destruct (HR (fst (marshal (an_account 123 [])))) as (Hr' & _ & Hw' & _);
      [reflexivity|].
    split; [exact Hr|]. split; [exact Hw|]. split; [exact Hr'|exact Hw'].
  - destruct (AddRole_RemoveRole_existing sm addr (an_account 123 [])
                (funded 123) (after (GetAccount sm addr) (funded 123))
                "admin") as (HA & HR);
      [vm_compute; reflexivity|].
    destruct (HA (fst (marshal an_admin))) as (Hr & _ & Hw & _);
      [reflexivity|].
    destruct (HR (fst (marshal (an_account 123 [])))) as (Hr' & _ & Hw' & _);
      [reflexivity|].
    split; [exact Hr|]. split; [exact Hw|]. split; [exact Hr'|exact Hw'].
Defined.

Lemma SetStorage_refused_witness :
  let w := started_on (failing_put ∅) in
  let w' := after (SetStorage sm addr slot_key initialVal) w in
  storage_of sm w' = storage_of sm w ∧
  ExceptionCode <$> latched sm w' = Some ErrorCodeGeneric.
Proof.
  intros w w'.
  destruct (SetStorage_refused sm addr slot_key initialVal (PlainErr "boom!") w)
    as (_ & _ & Hs & _ & Hl).
  - reflexivity.
  - fold w' in Hs, Hl. split; [exact Hs|]. rewrite Hl. reflexivity.
Defined.

Lemma SetStorage_touches_one_slot_witness :
  let w := after (SetStorage sm addr slot_key initialVal) (started ∅) in
  storage_of sm (after (SetStorage sm addr2 slot_key updatedVal) w)
    !! compKey addr slot_key = Some initialVal.
Proof.
  intros w.
  rewrite (SetStorage_touches_one_slot sm addr2 slot_key updatedVal w
             (compKey addr slot_key)).
  - vm_compute. reflexivity.
  - vm_compute. discriminate.
Defined.

Lemma GetStorage_read_failure_witness :
  let w := started_on failing_get in
  result (GetStorage sm addr slot_key) w = Zero256 ∧
  untouched w (after (GetStorage sm addr slot_key) w).
Proof.
  intros w.
  destruct (GetStorage_read_failure sm addr slot_key w [] (PlainErr "boom!")
              failing_get) as (Hr & _ & Hu & _).
  - vm_compute. reflexivity.
  - reflexivity.
  - split; assumption.
Defined.

Lemma accessors_on_failed_lookup_witness :
  let w := started_on failing_get in
  latched sm (after (GetAccount sm addr) w) = None ∧
  result (Exists sm addr) w = false ∧
  ExceptionCode <$> latched sm (after (Exists sm addr) w)
    = Some ErrorCodeGeneric ∧
  result (GetBalance sm addr) w = 0.
Proof.
  intros w.
  destruct (accessors_on_failed_lookup sm addr w (PlainErr "boom!")
              (after (GetAccount sm addr) w))
    as (HG & (HE & HEl & _) & (HB & _) & _).
  - vm_compute. reflexivity.
  - split; [rewrite HG; reflexivity|]. split; [exact HE|].
    split; [rewrite HEl; reflexivity|exact HB].
Defined.

Lemma CreateAccount_after_failed_lookup_witness :
  let w := started_on failing_get in
  let w' := after (CreateAccount sm addr) w in
  writes w' = [PutStateCall (Address_String addr)
                 (fst (marshal created_account))] ∧
  ExceptionCode <$> latched sm w' = Some ErrorCodeGeneric.
Proof.
  intros w w'.
  destruct (CreateAccount_after_failed_lookup sm addr w (PlainErr "boom!")
              (after (GetAccount sm addr) w) (fst (marshal created_account)))
    as (_ & Hw & _ & Hl).
  - vm_compute. reflexivity.
  - reflexivity.
  - fold w' in Hw, Hl. split; [exact Hw|]. rewrite Hl. reflexivity.
Defined.

Lemma accessors_on_cached_account_witness :
  Exists sm addr created = (true, created) ∧
  GetPermissions sm addr created
    = (mkAccountPermissions (mkBasePermissions 6 6) [], created).
Proof.
  destruct (accessors_on_cached_account sm addr created
              (fst (marshal created_account)) created_account)
    as (HE & _ & _ & _ & HP).
  - vm_compute. reflexivity.
  - vm_compute. reflexivity.
  - split; assumption.
Defined.

Lemma CreateAccount_twice_witness :
  let w'' := after (CreateAccount sm addr ;; CreateAccount sm addr) (started ∅) in
  writes w'' = [PutStateCall (Address_String addr)
                  (fst (marshal created_account))] ∧
  ExceptionCode <$> latched sm w'' = Some ErrorCodeDuplicateAddress.
Proof.
  intros w''.
  destruct (CreateAccount_twice sm addr (started ∅)
              (after (GetAccount sm addr) (started ∅))
              (fst (marshal created_account)) created_account)
    as (Hw & _ & Hl).
  - vm_compute. reflexivity.
  - reflexivity.
  - vm_compute. reflexivity.
  - unfold w''. rewrite after_bind. split; [exact Hw|].
    destruct Hl as (ex & -> & Hex). simpl. now rewrite Hex.
Defined.

Lemma AddToBalance_twice_witness :
  let w'' := after (AddToBalance sm addr 102345 ;; AddToBalance sm addr 102)
                   (funded 123) in
  result (GetBalance sm addr) w'' = 123 + 102345 + 102 ∧
  PutStateCallCount w'' = 2%nat.
Proof.
  intros w''.
  destruct (AddToBalance_twice sm addr (an_account 123 []) (funded 123)
              (after (GetAccount sm addr) (funded 123)) 102345 102
              (fst (marshal (an_account (123 + 102345) [])))
              (fst (marshal (an_account (123 + 102345 + 102) []))))
    as (_ & _ & Hr).
  - vm_compute. reflexivity.
  - reflexivity.
  - vm_compute. split; discriminate.
  - vm_compute. split; discriminate.
  - vm_compute. split; discriminate.
  - vm_compute. discriminate.
  - intros a b Ha Hb. simpl. rewrite Z.ltb_lt. lia.
  - reflexivity.
  - vm_compute. reflexivity.
  - reflexivity.
  - split; [apply Hr; vm_compute; reflexivity|vm_compute; reflexivity].
Defined.

Lemma CreateAccount_store_refused_witness :
  let w' := after (CreateAccount sm addr) (started_on (failing_put ∅)) in
  ExceptionCode <$> latched sm w' = Some ErrorCodeGeneric ∧
  Exists sm addr w' = (true, w').
Proof.
  intros w'.
  destruct (CreateAccount_store_refused sm addr (started_on (failing_put ∅))
              (after (GetAccount sm addr) (started_on (failing_put ∅)))
              (fst (marshal created_account)) (PlainErr "boom!")
              created_account) as (Hl & _ & HE).
  - vm_compute. reflexivity.
  - reflexivity.
  - reflexivity.
  - vm_compute. reflexivity.
  - fold w' in Hl, HE. split; [rewrite Hl; reflexivity|exact HE].
Defined.

Lemma InitCode_on_existing_code_witness :
  let w := started (ledger_of (an_account 0 some_code)) in
  untouched w (after (InitCode sm addr some_code) w) ∧
  untouched w (after (InitCode sm addr []) w).
Proof.
  intros w. split.
  - apply (InitCode_on_existing_code sm addr (an_account 0 some_code) w
             (after (GetAccount sm addr) w) some_code);
      [vm_compute; reflexivity|discriminate].
  - apply (InitCode_on_existing_code sm addr (an_account 0 some_code) w
             (after (GetAccount sm addr) w) []);
      [vm_compute; reflexivity|discriminate].
Defined.

Lemma InitCode_empty_then_code_witness :
  let w'' := after (InitCode sm addr [] ;; InitCode sm addr some_code)
                   (funded 123) in
  PutStateCallCount w'' = 2%nat ∧ latched sm w'' = None ∧
  accounts_of sm w'' !! Address_String addr
    = Some (fst (marshal (an_account 123 some_code))).
Proof.
  intros w''.
  destruct (InitCode_empty_then_code sm addr (an_account 123 []) (funded 123)
              (after (GetAccount sm addr) (funded 123)) some_code
              (fst (marshal (an_account 123 [])))
              (fst (marshal (an_account 123 some_code))))
    as (_ & Ha & _ & Hl).
  - vm_compute. reflexivity.
  - reflexivity.
  - reflexivity.
  - reflexivity.
  - vm_compute. reflexivity.
  - reflexivity.
  - unfold w''. rewrite after_bind.
    split; [vm_compute; reflexivity|]. split; [|exact Ha].
    rewrite Hl. vm_compute. reflexivity.
Defined.

Lemma NewCache_readonly_is_a_mark_witness :
  let v := result (NewCache sm [Name "view"; ReadOnly]) (started ∅) in
  let w1 := after (NewCache sm [Name "view"; ReadOnly]) (started ∅) in
  readonly (managers w1 !!! v) = true ∧
  storage_of sm (after (SetStorage v addr slot_key initialVal) w1)
    !! compKey addr slot_key = Some initialVal.
Proof.
  intros v w1.
  destruct (NewCache_readonly_is_a_mark sm [Name "view"; ReadOnly] (started ∅))
    as (Hr & Hs).
  - vm_compute. eexists. reflexivity.
  - split; [apply Hr; simpl; tauto|].
    apply (Hs addr slot_key initialVal). reflexivity.
Defined.


Lemma getCode_panics_on_a_latched_error_witness :
  result (getCode sm hex_addr) (started_on failing_get) = Panicked ∧
  result (getCode sm hex_addr) overdrawn = Panicked.
Proof.
  split.
  - apply (getCode_panics_on_a_latched_error sm hex_addr addr addr
             (started_on failing_get)).
    + vm_compute. reflexivity.
    + reflexivity.
    + right. exists (PlainErr "boom!"),
        (after (GetAccount sm addr) (started_on failing_get)).
      split; [vm_compute; reflexivity|simpl; eauto].
  - apply (getCode_panics_on_a_latched_error sm hex_addr addr addr overdrawn).
    + vm_compute. reflexivity.
    + reflexivity.
    + left. vm_compute. eexists. reflexivity.
Defined.

Lemma getCode_answers_witness :
  result (getCode sm hex_addr) (started ∅) = Returned (shim_Success []) ∧
  result (getCode sm hex_addr) (started (ledger_of (an_account 0 some_code)))
    = Returned (shim_Success
        (list_byte_of_string "6163636f756e7420636f6465")).
Proof.
  split.
  - destruct (getCode_answers sm hex_addr (started ∅))
      as (_ & _ & _ & _ & H).
    unfold result.
    rewrite (H addr addr (after (GetAccount sm addr) (started ∅)));
      [reflexivity|vm_compute; reflexivity|reflexivity|reflexivity
      |vm_compute; reflexivity].
  - destruct (getCode_answers sm hex_addr
                (started (ledger_of (an_account 0 some_code))))
      as (_ & _ & _ & H & _).
    unfold result. rewrite (H addr addr);
      [vm_compute; reflexivity|vm_compute; reflexivity|reflexivity
      |vm_compute; reflexivity].
Defined.

Lemma transfer_keeps_the_sum_witness :
  let w'' := after (SubtractFromBalance sm addr 30 ;; AddToBalance sm addr2 30)
                   two_accounts in
  result (GetBalance sm addr) w'' = 70 ∧
  result (GetBalance sm addr2) w'' = 37 ∧
  PutStateCallCount w'' = 2%nat.
Proof.
  intros w''.
  destruct (transfer_keeps_the_sum sm addr addr2 (an_account 100 [])
              (mkAccount addr2 [] 0 7 [] ZeroPermissions) 30 two_accounts
              (after (GetAccount sm addr) two_accounts)
              (after (GetAccount sm addr2)
                     (after (SubtractFromBalance sm addr 30) two_accounts))
              (fst (marshal (an_account 70 [])))
              (fst (marshal (mkAccount addr2 [] 0 37 [] ZeroPermissions))))
    as (HA & HB & _ & _).
  - vm_compute. reflexivity.
  - vm_compute. reflexivity.
  - reflexivity.
  - reflexivity.
  - vm_compute. discriminate.
  - vm_compute. split; discriminate.
  - vm_compute. split; discriminate.
  - vm_compute. split; discriminate.
  - vm_compute. discriminate.
  - vm_compute. discriminate.
  - intros a b Ha Hb. simpl. rewrite Z.ltb_lt. lia.
  - reflexivity.
  - vm_compute. reflexivity.
  - reflexivity.
  - vm_compute. reflexivity.
  - unfold w''. rewrite after_bind.
    split; [exact HA|]. split; [exact HB|vm_compute; reflexivity].
Defined.
